(** * Preemptive priority scheduling with round robin: a model of scheduling.c

    The C program keeps every process in one [struct Node].  The master list
    (linked through [tableNext]) is built once by [readFile] and never
    relinked, so a node is identified here by its position in that list and
    a pointer to a node is such a position; [NULL] is [None].  The ready
    queue is the chain of [next] fields starting at the global [head]; it
    is modelled as it is in C, as links stored inside the nodes, so that
    stale links and aliasing behave as they do in the program.

    The C [int] fields are integers of [Z]: the counters start at 0 or at
    the burst and move by one per tick over [N] ticks, so no operation
    overflows a 32-bit [int] unless a burst lies within [N] of [INT_MIN]. *)

From Stdlib Require Import ZArith String Lia.
From stdpp Require Import base tactics option list.

Local Open Scope Z_scope.

(** ** Constants (lines 13-14) *)

Definition Q : Z := 10.
Definition N : Z := 96.

(** ** The process structure (lines 18-29) *)

Definition ptr : Type := option nat.

Record Node : Type := mkNode {
  id : string;
  priority : Z;
  burst : Z;
  arrival : Z;
  timeLeft : Z;
  turnaround : Z;
  wait : Z;
  quantum : Z;
  next : ptr
}.

(** [newNode] (lines 40-57). *)
Definition newNode (i : string) (p b a : Z) : Node :=
  mkNode i p b a b 0 0 0 None.

#[global] Instance Node_inhabited : Inhabited Node :=
  populate (newNode EmptyString 0 0 0).

(** Field assignments [n->f = v]. *)
Definition set_timeLeft (v : Z) (n : Node) : Node :=
  mkNode (id n) (priority n) (burst n) (arrival n) v (turnaround n) (wait n)
         (quantum n) (next n).
Definition set_turnaround (v : Z) (n : Node) : Node :=
  mkNode (id n) (priority n) (burst n) (arrival n) (timeLeft n) v (wait n)
         (quantum n) (next n).
Definition set_wait (v : Z) (n : Node) : Node :=
  mkNode (id n) (priority n) (burst n) (arrival n) (timeLeft n) (turnaround n) v
         (quantum n) (next n).
Definition set_quantum (v : Z) (n : Node) : Node :=
  mkNode (id n) (priority n) (burst n) (arrival n) (timeLeft n) (turnaround n)
         (wait n) v (next n).
Definition set_next (v : ptr) (n : Node) : Node :=
  mkNode (id n) (priority n) (burst n) (arrival n) (timeLeft n) (turnaround n)
         (wait n) (quantum n) v.

(** ** Global state (lines 32-34) and the console *)

(** The only message printed inside the simulation loop (line 303). *)
Inductive Event : Type :=
  | ContextSwitch (t : Z) (P_n P_r : string).

Record State : Type := mkState {
  table : list Node;
  head : ptr;
  running : ptr;
  console : list Event
}.

(** The master list as [readFile] leaves it: one fresh node per record that
    the loop of lines 92-109 reads, in the order it reads them.  A
    [Descriptor] is such a record, with its fields as [strtok] and [atoi]
    give them; which lines of the file reach that loop (the header test of
    lines 82-90) and how their text is parsed is outside the model. *)
Definition Descriptor : Type := (string * Z * Z * Z)%type.

Definition loadTable (ds : list Descriptor) : list Node :=
  (fun d => match d with (i, p, b, a) => newNode i p b a end) <$> ds.

Definition initial (ds : list Descriptor) : State :=
  mkState (loadTable ds) None None [].

(** ** enqueue (lines 126-164) *)

(** The loop of lines 156-159; the result is the final [nav].  The loop only
    reads the heap, so running through more nodes than the table holds means
    it is going round a cycle and the C loop does not end: [None]. *)
Fixpoint walk (fuel : nat) (tbl : list Node) (node nav : nat) : option nat :=
  match next (tbl !!! nav) with
  | None => Some nav
  | Some nx =>
      if (priority (tbl !!! nx) <=? priority (tbl !!! node))
         && (quantum (tbl !!! node) =? 0)
      then match fuel with
           | O => None
           | S fuel' => walk fuel' tbl node nx
           end
      else Some nav
  end.

(** Lines 128-133. *)
Definition normalise (node : nat) (tbl : list Node) : list Node :=
  if Q <=? quantum (tbl !!! node) then alter (set_quantum 0) node tbl else tbl.

(** Lines 136-163, on the heap and the queue head. *)
Definition link (n : nat) (tbl : list Node) (hd : ptr)
  : option (list Node * ptr) :=
  match hd with
  | None => Some (tbl, Some n)
  | Some h =>
      if priority (tbl !!! h) <? priority (tbl !!! n) then
        Some (alter (set_next (Some h)) n tbl, Some n)
      else if priority (tbl !!! n) =? priority (tbl !!! h) then
        if negb (quantum (tbl !!! n) =? 0) then
          Some (alter (set_next (Some h)) n tbl, Some n)
        else
          let tbl1 := alter (set_next (next (tbl !!! h))) n tbl in
          Some (alter (set_next (Some n)) h tbl1, Some h)
      else
        match walk (length tbl) tbl n h with
        | None => None
        | Some nav =>
            let tbl1 := alter (set_next (next (tbl !!! nav))) n tbl in
            Some (alter (set_next (Some n)) nav tbl1, Some h)
        end
  end.

Definition enqueue (node : ptr) (s : State) : option State :=
  match node with
  | None => Some s
  | Some n =>
      (fun r => mkState (fst r) (snd r) (running s) (console s))
        <$> link n (normalise n (table s)) (head s)
  end.

(** ** dequeue (lines 170-176) *)

Definition dequeue (s : State) : State :=
  mkState (table s)
          (match head s with
           | None => None
           | Some h => next (table s !!! h)
           end)
          (head s) (console s).

(** ** quantumCheck (lines 185-198) *)

Definition quantumCheck (s : State) : option State :=
  match running s with
  | None => Some s
  | Some r =>
      if timeLeft (table s !!! r) =? 0 then
        Some (dequeue (mkState (alter (set_next None) r (table s))
                               (head s) (running s) (console s)))
      else if quantum (table s !!! r) =? Q then
        dequeue <$> enqueue (Some r) s
      else Some s
  end.

(** ** stepProcesses (lines 204-218) *)

Definition stepRunning (n : Node) : Node :=
  set_turnaround (turnaround n + 1)
    (set_timeLeft (timeLeft n - 1) (set_quantum (quantum n + 1) n)).

Definition stepWaiting (n : Node) : Node :=
  set_turnaround (turnaround n + 1) (set_wait (wait n + 1) n).

(** The loop of lines 213-217; it follows the [next] links, which it does
    not change, so more iterations than there are nodes means a cycle. *)
Fixpoint stepQueue (fuel : nat) (tbl : list Node) (nav : ptr)
  : option (list Node) :=
  match nav with
  | None => Some tbl
  | Some i =>
      match fuel with
      | O => None
      | S fuel' => stepQueue fuel' (alter stepWaiting i tbl) (next (tbl !!! i))
      end
  end.

Definition stepProcesses (s : State) : option State :=
  let tbl := match running s with
             | None => table s
             | Some r => alter stepRunning r (table s)
             end in
  (fun tbl' => mkState tbl' (head s) (running s) (console s))
    <$> stepQueue (length tbl) tbl (head s).

(** ** The body of the arrival scan (lines 278-316) *)

(** Lines 292-301: the running process is at a slice boundary. *)
Definition preemptAtBoundary (nav r : nat) (s : State) : option State :=
  if timeLeft (table s !!! r) <=? 0 then
    Some (mkState (table s) (head s) (Some nav) (console s))
  else
    (fun s' => mkState (table s') (head s') (Some nav) (console s'))
      <$> enqueue (Some r) s.

(** Lines 302-308: the running process is inside its slice. *)
Definition preemptMidSlice (t : Z) (nav r : nat) (s : State) : option State :=
  let msg := ContextSwitch t (id (table s !!! nav)) (id (table s !!! r)) in
  (fun s' => mkState (table s') (head s') (Some nav) (console s'))
    <$> enqueue (Some r)
          (mkState (table s) (head s) (running s) (console s ++ [msg])).

(** One process whose arrival time is the current tick. *)
Definition arrive (t : Z) (nav : nat) (s : State) : option State :=
  match running s with
  | None => Some (mkState (table s) (head s) (Some nav) (console s))
  | Some r =>
      if priority (table s !!! r) <? priority (table s !!! nav) then
        if (quantum (table s !!! r) =? 0) || (quantum (table s !!! r) =? 10)
        then preemptAtBoundary nav r s
        else preemptMidSlice t nav r s
      else enqueue (Some nav) s
  end.

(** The scan of the master list (lines 270-320), with its [flag]. *)
Fixpoint scanArrivals (t : Z) (navs : list nat) (s : State) (flag : bool)
  : option (State * bool) :=
  match navs with
  | [] => Some (s, flag)
  | nav :: rest =>
      if arrival (table s !!! nav) =? t then
        match arrive t nav s with
        | None => None
        | Some s' => scanArrivals t rest s' true
        end
      else scanArrivals t rest s flag
  end.

(** ** One iteration of the loop of [main] (lines 268-330) *)

Definition tick (t : Z) (s : State) : option State :=
  match scanArrivals t (seq 0 (length (table s))) s false with
  | None => None
  | Some (s1, flag) =>
      match (if flag then Some s1 else quantumCheck s1) with
      | None => None
      | Some s2 => stepProcesses s2
      end
  end.

(** The first [k] iterations, [t = 0 .. k-1]. *)
Fixpoint ticks (k : nat) (s : State) : option State :=
  match k with
  | O => Some s
  | S k' =>
      match ticks k' s with
      | None => None
      | Some s' => tick (Z.of_nat k') s'
      end
  end.

Definition simulate (ds : list Descriptor) : option State :=
  ticks (Z.to_nat N) (initial ds).

(** What [output] prints (lines 223-232). *)
Definition output (s : State) : list (string * Z * Z) :=
  (fun n => (id n, turnaround n, wait n)) <$> table s.

(** ** Reading the ready queue off the heap *)

(** The nodes met from [p] along [next], at most [fuel] of them. *)
Fixpoint chainFrom (fuel : nat) (tbl : list Node) (p : ptr) : list nat :=
  match p, fuel with
  | Some i, S fuel' => i :: chainFrom fuel' tbl (next (tbl !!! i))
  | _, _ => []
  end.

Definition readyQueue (s : State) : list nat :=
  chainFrom (length (table s)) (table s) (head s).

(** [isChain tbl p l]: following [next] from [p] visits exactly [l] and then
    reaches [NULL]. *)
Fixpoint isChain (tbl : list Node) (p : ptr) (l : list nat) : Prop :=
  match l with
  | [] => p = None
  | i :: l' =>
      p = Some i /\ (i < length tbl)%nat /\ isChain tbl (next (tbl !!! i)) l'
  end.


(** ** The placement rule of [enqueue] on the queue read as a list

    [prio] gives a node's priority and [fresh] says that the node's quantum
    is 0 once lines 131-133 have run. *)
Section Placement.
Variable prio : nat -> Z.
Variable fresh : bool.
Variable n : nat.

(** Lines 154-162, seen from the node after [nav]. *)
Fixpoint insertAfter (rest : list nat) : list nat :=
  match rest with
  | [] => [n]
  | x :: rest' =>
      if (prio x <=? prio n) && fresh then x :: insertAfter rest'
      else n :: rest
  end.

(** Lines 136-163. *)
Definition place (q : list nat) : list nat :=
  match q with
  | [] => [n]
  | h :: rest =>
      if prio h <? prio n then n :: q
      else if prio n =? prio h then
        if negb fresh then n :: q else h :: n :: rest
      else h :: insertAfter rest
  end.
End Placement.

(** The fields of a node other than its link and its quantum. *)
Definition payload (n : Node) : string * Z * Z * Z * Z * Z * Z :=
  (id n, priority n, burst n, arrival n, timeLeft n, turnaround n, wait n).

(** The fields [newNode] takes from the input record. *)
Definition statics (n : Node) : string * Z * Z * Z :=
  (id n, priority n, burst n, arrival n).

(** A node no operation has touched since [newNode] made it. *)
Definition untouched (n : Node) : Prop :=
  timeLeft n = burst n /\ turnaround n = 0 /\ wait n = 0 /\ quantum n = 0 /\
  next n = None.

(** Everything [link] leaves alone in a node it relinks. *)
Definition data (x : Node) := (payload x, quantum x).

Definition prioOf (tbl : list Node) (i : nat) : Z := priority (tbl !!! i).

(** The node starts a new slice: its quantum is 0 after lines 131-133. *)
Definition freshSlice (x : Node) : bool :=
  (Q <=? quantum x) || (quantum x =? 0).

(** The scheduling state: everything but the console. *)
Definition scheduling (s : State) : list Node * ptr * ptr :=
  (table s, head s, running s).

Definition priorities (s : State) : list Z :=
  prioOf (table s) <$> readyQueue s.

(** Non-increasing order: an earlier entry is never below a later one. *)
Definition descending (l : list Z) : Prop :=
  forall (i j : nat) (x y : Z),
    (i < j)%nat -> l !! i = Some x -> l !! j = Some y -> y <= x.

(** [y] is a later state of the node [x]: the counters only moved the way
    [stepProcesses] moves them. *)
Definition advances (x y : Node) : Prop :=
  statics x = statics y /\ wait x <= wait y /\
  turnaround x <= turnaround y /\ timeLeft y <= timeLeft x.

(** The quanta are not negative, and below [Q] in the queue [q]. *)
Definition quantumOk (tbl : list Node) (q : list nat) : Prop :=
  (forall j, 0 <= quantum (tbl !!! j)) /\
  (forall j, j ∈ q -> quantum (tbl !!! j) < Q).

(** ** The invariant of the loop of [main]

    [tbl0] is the table as [readFile] left it and [F] holds of the processes
    that have not arrived yet.  The fields [newNode] takes from the input
    never change.  The queue is a chain that ends; the running process is
    outside it, and carries no stale link when the queue is empty; a process
    that has not arrived is neither queued nor running and is as [newNode]
    made it; no quantum is negative and the queued ones are below [Q]. *)
Definition Inv (tbl0 : list Node) (F : nat -> Prop) (s : State) : Prop :=
  length (table s) = length tbl0 /\
  (forall j, statics (table s !!! j) = statics (tbl0 !!! j)) /\
  exists q,
    isChain (table s) (head s) q /\
    (forall j, F j -> (j < length tbl0)%nat ->
               (j ∉ q) /\ untouched (table s !!! j)) /\
    (forall r, running s = Some r ->
               (r < length tbl0)%nat /\ (r ∉ q) /\ ~ F r /\
               (q = [] -> next (table s !!! r) = None)) /\
    quantumOk (table s) q.

(** Processes that have not arrived, inside the scan of tick [t] with
    [navs] still to visit, and between ticks. *)
Definition pending (tbl0 : list Node) (t : Z) (navs : list nat) (j : nat)
  : Prop :=
  arrival (tbl0 !!! j) < 0 \/ t < arrival (tbl0 !!! j) \/
  (arrival (tbl0 !!! j) = t /\ j ∈ navs).

Definition notArrived (tbl0 : list Node) (t : Z) (j : nat) : Prop :=
  arrival (tbl0 !!! j) < 0 \/ t <= arrival (tbl0 !!! j).

(** ** Inputs used below *)

(** One process inside the horizon, one that arrives after it and one with a
    negative arrival time. *)
Definition lateInput : list Descriptor :=
  [("P1"%string, 1, 5, 0); ("P2"%string, 2, 3, 200); ("P3"%string, 2, 3, -4)].

(** A state of the simple preemption scenario: [A] has run two ticks of its
    slice, [C], of the same priority, waits, and [B] is about to arrive. *)
Definition preemptInput : list Descriptor :=
  [("A"%string, 1, 20, 0); ("B"%string, 5, 3, 2); ("C"%string, 1, 4, 1)].

Definition midSliceState : State :=
  Eval vm_compute in default (initial []) (ticks 2 (initial preemptInput)).

(** Four processes that arrive at tick 0 with priorities 10, 5, 3 and 1. *)
Definition unsortedInput : list Descriptor :=
  [("P1"%string, 10, 5, 0); ("P2"%string, 5, 5, 0);
   ("P3"%string, 3, 5, 0); ("P4"%string, 1, 5, 0)].

(** [A] has burst 2 and [B], of higher priority, arrives at tick 2. *)
Definition finishedInput : list Descriptor :=
  [("A"%string, 1, 2, 0); ("B"%string, 5, 3, 2)].

(** Four processes of one priority that arrive at tick 0. *)
Definition equalInput : list Descriptor :=
  [("P1"%string, 5, 5, 0); ("P2"%string, 5, 5, 0);
   ("P3"%string, 5, 5, 0); ("P4"%string, 5, 5, 0)].

(** [A] has burst 1 and [B], of lower priority, arrives at tick 1. *)
Definition negativeInput : list Descriptor :=
  [("A"%string, 5, 1, 0); ("B"%string, 1, 1, 1)].

(** [A] has a long burst and [B], of lower priority, arrives at tick 10. *)
Definition overrunInput : list Descriptor :=
  [("A"%string, 5, 50, 0); ("B"%string, 1, 1, 10)].

(** Two processes of one priority; after ten ticks the first has used up
    its slice and the second waits. *)
Definition roundRobinInput : list Descriptor :=
  [("A"%string, 1, 15, 0); ("B"%string, 1, 15, 0)].

Definition expiredState : State :=
  Eval vm_compute in default (initial []) (ticks 10 (initial roundRobinInput)).

(** [A], of burst 2, has finished after two ticks while [C] waits. *)
Definition doneInput : list Descriptor :=
  [("A"%string, 3, 2, 0); ("C"%string, 1, 4, 1)].

Definition doneState : State :=
  Eval vm_compute in default (initial []) (ticks 2 (initial doneInput)).

(** A state of [preemptInput] reached later, for comparison with
    [midSliceState]. *)
Definition laterState : State :=
  Eval vm_compute in default (initial []) (ticks 7 (initial preemptInput)).

(** The states of a run with a single process: its node with the given
    [timeLeft], [turnaround] and quantum, an empty queue, and the running
    slot [r]. *)
Definition loneState (i : string) (p b a tl ta qn : Z) (r : ptr) : State :=
  mkState [mkNode i p b a tl ta 0 qn None] None r [].

(** Seven processes: after [P1] and [P4] have run, [P6], of priority 5,
    runs while [P5], [P2], [P3], of priorities 10, 8, 5, wait; [P7], of
    priority 6, arrives at tick 5. *)
Definition frontInput : list Descriptor :=
  [("P1"%string, 10, 2, 0); ("P2"%string, 8, 5, 0); ("P3"%string, 5, 5, 0);
   ("P4"%string, 10, 1, 0); ("P5"%string, 10, 5, 0); ("P6"%string, 5, 9, 0);
   ("P7"%string, 6, 3, 5)].

(** ** The range of a C [int] *)

Definition INT_MIN : Z := -2147483648.
Definition INT_MAX : Z := 2147483647.

(** Every burst is an [int] that [N] decrements cannot take below
    [INT_MIN]: on such a table no operation of the loop overflows, and the
    integers of the model are the values of the program. *)
Definition burstsFit (ds : list Descriptor) : Prop :=
  Forall (fun d => INT_MIN + N <= snd (fst d) <= INT_MAX) ds.

(** ** Vocabulary for the operations *)

(** The process is in the running slot or in the ready queue. *)
Definition active (s : State) (j : nat) : Prop :=
  running s = Some j \/ j ∈ readyQueue s.

(** The running process that line 295 drops when [nav] arrives: it is of
    lower priority, at a slice boundary, and has no time left. *)
Definition droppedBy (s : State) (nav j : nat) : Prop :=
  running s = Some j /\
  priority (table s !!! j) < priority (table s !!! nav) /\
  (quantum (table s !!! j) = 0 \/ quantum (table s !!! j) = 10) /\
  timeLeft (table s !!! j) <= 0.

(** The accounting identity of [stepProcesses]: every tick counted in
    [turnaround] was spent waiting or running. *)
Definition balanced (n : Node) : Prop :=
  turnaround n = wait n + (burst n - timeLeft n).

(** Run the model on a concrete input and read the facts off the result. *)
Ltac by_evaluation :=
  repeat match goal with |- _ /\ _ => split end; vm_compute; reflexivity.


(** * Heap reasoning *)

Section Heap.
Implicit Types (tbl : list Node) (p : ptr) (l q : list nat) (i j n : nat).

Lemma lookup_alter_same tbl i (f : Node -> Node) :
  (i < length tbl)%nat -> alter f i tbl !!! i = f (tbl !!! i).
Proof. apply list_lookup_total_alter_eq. Qed.

Lemma lookup_alter_other tbl i j (f : Node -> Node) :
  i <> j -> alter f i tbl !!! j = tbl !!! j.
Proof. apply list_lookup_total_alter_ne. Qed.

(** A property of nodes that [f] keeps is kept by [alter f]. *)
Lemma lookup_alter_keeps {A} (g : Node -> A) (f : Node -> Node) tbl i j :
  (forall x, g (f x) = g x) -> g (alter f i tbl !!! j) = g (tbl !!! j).
Proof.
  intros Hf. rewrite list_lookup_total_alter.
  case_decide as Hd; [destruct Hd as [-> _]; apply Hf | reflexivity].
Qed.

Lemma isChain_bound tbl p l i :
  isChain tbl p l -> i ∈ l -> (i < length tbl)%nat.
Proof.
  revert p. induction l as [|x l IH]; intros p Hc Hi.
  - inversion Hi.
  - destruct Hc as (_ & Hx & Hc). apply elem_of_cons in Hi as [->|Hi]; eauto.
Qed.

Lemma isChain_inj tbl p l l' : isChain tbl p l -> isChain tbl p l' -> l = l'.
Proof.
  revert p l'. induction l as [|x l IH]; intros p [|y l'] H H'; simpl in *.
  - reflexivity.
  - destruct H' as (H' & _). congruence.
  - destruct H as (H & _). congruence.
  - destruct H as (H & _ & Hc), H' as (H' & _ & Hc').
    assert (x = y) by congruence. subst y. f_equal. eauto.
Qed.

Lemma isChain_app tbl p l1 l2 :
  isChain tbl p (l1 ++ l2) ->
  exists p', isChain tbl p' l2 /\
             (l1 = [] -> p' = p) /\
             (forall x, last l1 = Some x -> p' = next (tbl !!! x)).
Proof.
  revert p. induction l1 as [|x l1 IH]; intros p Hc; simpl in *.
  - exists p. split; [assumption|]. split; [reflexivity|]. intros x Hx. inversion Hx.
  - destruct Hc as (-> & Hx & Hc). destruct (IH _ Hc) as (p' & Hp' & Hnil & Hlast).
    exists p'. split; [assumption|]. split; [intros Hn; inversion Hn|].
    intros y Hy. destruct l1 as [|z l1].
    + simpl in Hy. inversion Hy; subst. apply Hnil. reflexivity.
    + apply Hlast. exact Hy.
Qed.

(** A chain that ends cannot pass twice through a node. *)
Lemma isChain_NoDup tbl p l : isChain tbl p l -> NoDup l.
Proof.
  revert p. induction l as [|x l IH]; intros p Hc.
  - constructor.
  - destruct Hc as (-> & Hx & Hc). constructor; [|eauto].
    intros Hin. apply list_elem_of_split in Hin as (l1 & l2 & ->).
    destruct (isChain_app tbl (next (tbl !!! x)) (l1 ++ [x]) l2) as (p' & Hp' & _ & Hlast).
    { rewrite <- app_assoc. exact Hc. }
    rewrite (Hlast x) in Hp' by apply last_snoc.
    pose proof (isChain_inj _ _ _ _ Hc Hp') as Heq.
    apply (f_equal length) in Heq. rewrite length_app in Heq. simpl in Heq. lia.
Qed.

(** Frame: changing a node outside the chain, or changing fields other
    than [next], leaves the chain as it is. *)
Lemma isChain_alter_notin tbl p l j (f : Node -> Node) :
  isChain tbl p l -> j ∉ l -> isChain (alter f j tbl) p l.
Proof.
  revert p. induction l as [|x l IH]; intros p Hc Hj; simpl in *; [assumption|].
  destruct Hc as (-> & Hx & Hc). apply not_elem_of_cons in Hj as [Hne Hj].
  split; [reflexivity|]. split; [rewrite length_alter; assumption|].
  rewrite lookup_alter_other by assumption. eauto.
Qed.

Lemma isChain_alter_keeps tbl p l j (f : Node -> Node) :
  (forall x, next (f x) = next x) ->
  isChain tbl p l -> isChain (alter f j tbl) p l.
Proof.
  intros Hf. revert p. induction l as [|x l IH]; intros p Hc; simpl in *;
    [assumption|].
  destruct Hc as (-> & Hx & Hc).
  split; [reflexivity|]. split; [rewrite length_alter; assumption|].
  rewrite (lookup_alter_keeps next) by assumption. eauto.
Qed.

Lemma chainFrom_isChain tbl p l fuel :
  isChain tbl p l -> (length l <= fuel)%nat -> chainFrom fuel tbl p = l.
Proof.
  revert p fuel. induction l as [|x l IH]; intros p fuel Hc Hf; simpl in *.
  - subst p. destruct fuel; reflexivity.
  - destruct Hc as (-> & Hx & Hc). destruct fuel as [|fuel]; [lia|].
    simpl. f_equal. apply IH; [assumption | lia].
Qed.

(** Distinct positions of the table are no more than its length. *)
Lemma NoDup_bounded_length l (m : nat) :
  NoDup l -> (forall i, i ∈ l -> (i < m)%nat) -> (length l <= m)%nat.
Proof.
  intros Hnd Hb.
  assert (Hsub : l ⊆ seq 0 m).
  { intros i Hi. apply elem_of_seq. specialize (Hb i Hi). lia. }
  pose proof (submseteq_length _ _ (NoDup_submseteq _ _ Hnd Hsub)) as Hlen.
  rewrite length_seq in Hlen. exact Hlen.
Qed.

Lemma isChain_length tbl p l : isChain tbl p l -> (length l <= length tbl)%nat.
Proof.
  intros Hc. apply NoDup_bounded_length; [eapply isChain_NoDup; eassumption|].
  intros i Hi. eapply isChain_bound; eassumption.
Qed.

Lemma readyQueue_isChain s l :
  isChain (table s) (head s) l -> readyQueue s = l.
Proof.
  intros Hc. apply chainFrom_isChain; [assumption|].
  eapply isChain_length; eassumption.
Qed.
End Heap.

(** * The ready queue operations on a well-formed heap *)

Section Enqueue.
Implicit Types (tbl : list Node) (p : ptr) (l q : list nat) (i j n : nat).

Lemma data_set_next v x : data (set_next v x) = data x.
Proof. reflexivity. Qed.

Lemma data_payload x y : data x = data y -> payload x = payload y.
Proof. intros H. exact (f_equal fst H). Qed.

Lemma data_quantum x y : data x = data y -> quantum x = quantum y.
Proof. intros H. exact (f_equal snd H). Qed.

Lemma isChain_push tbl h q n :
  isChain tbl (Some h) q -> n ∉ q -> (n < length tbl)%nat ->
  isChain (alter (set_next (Some h)) n tbl) (Some n) (n :: q).
Proof.
  intros Hc Hn Hlt. simpl. split; [reflexivity|].
  split; [rewrite length_alter; assumption|].
  rewrite lookup_alter_same by assumption. simpl.
  apply isChain_alter_notin; assumption.
Qed.

(** Linking [n] in after [x] (lines 149-150 and 161-162). *)
Lemma isChain_splice tbl p la x lb n :
  isChain tbl p (la ++ x :: lb) -> n ∉ la ++ x :: lb ->
  (n < length tbl)%nat ->
  isChain (alter (set_next (Some n)) x
             (alter (set_next (next (tbl !!! x))) n tbl))
          p (la ++ x :: n :: lb).
Proof.
  intros Hc Hn Hlt. pose proof (isChain_NoDup _ _ _ Hc) as Hnd.
  revert p Hc Hn Hnd. induction la as [|y la IH]; intros p Hc Hn Hnd.
  - simpl in *. destruct Hc as (-> & Hx & Hc).
    apply not_elem_of_cons in Hn as [Hnx Hn].
    apply NoDup_cons in Hnd as [Hxl _].
    split; [reflexivity|]. split; [rewrite !length_alter; assumption|].
    rewrite lookup_alter_same by (rewrite length_alter; assumption). simpl.
    split; [reflexivity|]. split; [rewrite !length_alter; assumption|].
    rewrite lookup_alter_other by congruence.
    rewrite lookup_alter_same by assumption. simpl.
    do 2 (apply isChain_alter_notin; [|assumption]). assumption.
  - simpl in *. destruct Hc as (-> & Hy & Hc).
    apply not_elem_of_cons in Hn as [Hny Hn].
    apply NoDup_cons in Hnd as [Hyl Hnd].
    split; [reflexivity|]. split; [rewrite !length_alter; assumption|].
    assert (x <> y) by (intros ->; apply Hyl; apply elem_of_app; right; left).
    rewrite !lookup_alter_other by congruence. apply IH; assumption.
Qed.

(** The loop of lines 156-159 on a chain: it ends within [length rest]
    rounds, where [insertAfter] puts the node. *)
Lemma walk_insertAfter tbl n fuel nav rest :
  isChain tbl (next (tbl !!! nav)) rest -> (length rest <= fuel)%nat ->
  exists nav' la lb,
    walk fuel tbl n nav = Some nav' /\
    nav :: rest = la ++ nav' :: lb /\
    nav :: insertAfter (fun i => priority (tbl !!! i))
                       (quantum (tbl !!! n) =? 0) n rest
      = la ++ nav' :: n :: lb.
Proof.
  revert nav fuel. induction rest as [|x rest IH]; intros nav fuel Hc Hf.
  - simpl in Hc. exists nav, [], []. destruct fuel; simpl; rewrite Hc; auto.
  - destruct Hc as (Hnx & Hx & Hc). simpl insertAfter.
    destruct ((priority (tbl !!! x) <=? priority (tbl !!! n))
              && (quantum (tbl !!! n) =? 0)) eqn:Hcond.
    + destruct fuel as [|fuel]; [simpl in Hf; lia|].
      destruct (IH x fuel Hc) as (nav' & la & lb & Hw & Hsplit & Hins);
        [simpl in Hf; lia|].
      exists nav', (nav :: la), lb. simpl. rewrite Hnx, Hcond.
      split; [assumption|]. split; f_equal; assumption.
    + exists nav, [], (x :: rest).
      split; [|split; reflexivity].
      destruct fuel; simpl; rewrite Hnx, Hcond; reflexivity.
Qed.

Lemma link_spec tbl hd n q :
  isChain tbl hd q -> n ∉ q -> (n < length tbl)%nat ->
  (q = [] -> next (tbl !!! n) = None) ->
  exists tbl' hd',
    link n tbl hd = Some (tbl', hd') /\
    isChain tbl' hd' (place (fun i => priority (tbl !!! i))
                            (quantum (tbl !!! n) =? 0) n q) /\
    length tbl' = length tbl /\
    (forall j, j <> n -> j ∉ q -> tbl' !!! j = tbl !!! j) /\
    (forall j, data (tbl' !!! j) = data (tbl !!! j)).
Proof.
  intros Hc Hn Hlt Hstale. destruct q as [|h rest].
  - simpl in Hc. subst hd. exists tbl, (Some n). simpl.
    repeat split; auto.
  - pose proof Hc as (-> & Hh & Hrest). unfold link, place.
    destruct (priority (tbl !!! h) <? priority (tbl !!! n)) eqn:Hgt;
      [|destruct (priority (tbl !!! n) =? priority (tbl !!! h)) eqn:Heq;
        [destruct (negb (quantum (tbl !!! n) =? 0)) eqn:Hfr|]].
    + eexists _, _. split; [reflexivity|].
      split; [apply isChain_push; assumption|].
      split; [apply length_alter|].
      split; [intros j Hj _; apply lookup_alter_other; congruence|].
      intros j. apply lookup_alter_keeps. apply data_set_next.
    + eexists _, _. split; [reflexivity|].
      split; [apply isChain_push; assumption|].
      split; [apply length_alter|].
      split; [intros j Hj _; apply lookup_alter_other; congruence|].
      intros j. apply lookup_alter_keeps. apply data_set_next.
    + eexists _, _. split; [reflexivity|].
      split; [apply (isChain_splice tbl (Some h) [] h rest n); assumption|].
      split; [rewrite !length_alter; reflexivity|].
      split.
      * intros j Hj Hjq. apply not_elem_of_cons in Hjq as [Hjh _].
        rewrite !lookup_alter_other by congruence. reflexivity.
      * intros j. rewrite !(lookup_alter_keeps data); auto using data_set_next.
    + destruct (walk_insertAfter tbl n (length tbl) h rest Hrest)
        as (nav & la & lb & Hw & Hsplit & Hins).
      { pose proof (isChain_length _ _ _ Hc). simpl in *. lia. }
      rewrite Hw, Hins. eexists _, _. split; [reflexivity|].
      split; [apply isChain_splice; [rewrite <- Hsplit|rewrite <- Hsplit|];
              assumption|].
      split; [rewrite !length_alter; reflexivity|].
      split.
      * intros j Hj Hjq. rewrite Hsplit in Hjq.
        assert (nav <> j).
        { intros ->. apply Hjq. apply elem_of_app. right. left. }
        rewrite !lookup_alter_other by congruence. reflexivity.
      * intros j. rewrite !(lookup_alter_keeps data); auto using data_set_next.
Qed.
End Enqueue.

Section EnqueueState.
Implicit Types (s : State) (q : list nat) (n j : nat).

Lemma place_split prio fresh n q :
  exists l1 l2, q = l1 ++ l2 /\ place prio fresh n q = l1 ++ n :: l2.
Proof.
  assert (Hins : forall rest, exists l1 l2,
             rest = l1 ++ l2 /\ insertAfter prio fresh n rest = l1 ++ n :: l2).
  { induction rest as [|x rest (l1 & l2 & Hq & Hp)]; simpl.
    - exists [], []. auto.
    - destruct ((prio x <=? prio n) && fresh).
      + exists (x :: l1), l2. simpl. split; f_equal; assumption.
      + exists [], (x :: rest). auto. }
  destruct q as [|h rest]; simpl.
  - exists [], []. auto.
  - destruct (prio h <? prio n); [exists [], (h :: rest); auto|].
    destruct (prio n =? prio h).
    + destruct (negb fresh); [exists [], (h :: rest) | exists [h], rest]; auto.
    + destruct (Hins rest) as (l1 & l2 & Hq & Hp).
      exists (h :: l1), l2. simpl. split; f_equal; assumption.
Qed.

Lemma elem_of_place prio fresh n q j :
  j ∈ place prio fresh n q <-> j = n \/ j ∈ q.
Proof.
  destruct (place_split prio fresh n q) as (l1 & l2 & -> & ->).
  rewrite !elem_of_app, elem_of_cons. tauto.
Qed.

Lemma place_not_nil prio fresh n q : place prio fresh n q <> [].
Proof.
  destruct (place_split prio fresh n q) as (l1 & l2 & _ & ->).
  destruct l1; discriminate.
Qed.

Lemma place_ext prio prio' fresh n q :
  (forall i, prio i = prio' i) ->
  place prio fresh n q = place prio' fresh n q.
Proof.
  intros He.
  assert (Hins : forall rest,
             insertAfter prio fresh n rest = insertAfter prio' fresh n rest).
  { induction rest as [|x rest IH]; simpl; [reflexivity|].
    rewrite !He, IH. reflexivity. }
  destruct q as [|h rest]; simpl; [reflexivity|].
  rewrite !He, Hins. reflexivity.
Qed.

Lemma normalise_length n tbl : length (normalise n tbl) = length tbl.
Proof. unfold normalise. destruct (Q <=? _); [apply length_alter | reflexivity]. Qed.

Lemma normalise_keeps {A} (g : Node -> A) n tbl j :
  (forall v x, g (set_quantum v x) = g x) ->
  g (normalise n tbl !!! j) = g (tbl !!! j).
Proof.
  intros Hg. unfold normalise.
  destruct (Q <=? _); [apply lookup_alter_keeps; apply Hg | reflexivity].
Qed.

Lemma normalise_other n tbl j : j <> n -> normalise n tbl !!! j = tbl !!! j.
Proof.
  intros Hj. unfold normalise.
  destruct (Q <=? _); [apply lookup_alter_other; congruence | reflexivity].
Qed.

Lemma normalise_quantum n tbl :
  (n < length tbl)%nat ->
  quantum (normalise n tbl !!! n)
  = if Q <=? quantum (tbl !!! n) then 0 else quantum (tbl !!! n).
Proof.
  intros Hn. unfold normalise. destruct (Q <=? _); [|reflexivity].
  rewrite lookup_alter_same by assumption. reflexivity.
Qed.

Lemma normalise_fresh n tbl :
  (n < length tbl)%nat ->
  (quantum (normalise n tbl !!! n) =? 0) = freshSlice (tbl !!! n).
Proof.
  intros Hn. rewrite normalise_quantum by assumption. unfold freshSlice.
  destruct (Q <=? quantum (tbl !!! n)); reflexivity.
Qed.

Lemma isChain_normalise n tbl p q :
  isChain tbl p q -> isChain (normalise n tbl) p q.
Proof.
  intros Hc. unfold normalise.
  destruct (Q <=? _); [apply isChain_alter_keeps; auto | assumption].
Qed.

(** [enqueue] on a heap whose queue is the chain [q], for a node outside
    it: it returns, the queue becomes [place ... q], and only links and
    the node's quantum change. *)
Lemma enqueue_spec s n q :
  isChain (table s) (head s) q -> n ∉ q -> (n < length (table s))%nat ->
  (q = [] -> next (table s !!! n) = None) ->
  exists s',
    enqueue (Some n) s = Some s' /\
    isChain (table s') (head s')
            (place (prioOf (table s)) (freshSlice (table s !!! n)) n q) /\
    running s' = running s /\ console s' = console s /\
    length (table s') = length (table s) /\
    (forall j, j <> n -> j ∉ q -> table s' !!! j = table s !!! j) /\
    (forall j, payload (table s' !!! j) = payload (table s !!! j)) /\
    (forall j, j <> n -> quantum (table s' !!! j) = quantum (table s !!! j)) /\
    quantum (table s' !!! n)
    = (if Q <=? quantum (table s !!! n) then 0 else quantum (table s !!! n)).
Proof.
  intros Hc Hn Hlt Hstale.
  destruct (link_spec (normalise n (table s)) (head s) n q)
    as (tbl' & hd' & Hlink & Hc' & Hlen & Hother & Hdata).
  { apply isChain_normalise. assumption. }
  { assumption. }
  { rewrite normalise_length. assumption. }
  { intros Hq. rewrite (normalise_keeps next) by reflexivity. auto. }
  exists (mkState tbl' hd' (running s) (console s)).
  unfold enqueue. rewrite Hlink. simpl.
  split; [reflexivity|]. split.
  { rewrite normalise_fresh in Hc' by assumption.
    rewrite (place_ext _ (prioOf (table s))) in Hc'; [exact Hc'|].
    intros i. unfold prioOf. apply (normalise_keeps priority). reflexivity. }
  split; [reflexivity|]. split; [reflexivity|].
  split; [rewrite Hlen; apply normalise_length|].
  split; [intros j Hj Hjq; rewrite Hother by assumption;
          apply normalise_other; assumption|].
  split.
  { intros j. rewrite (data_payload _ _ (Hdata j)).
    apply (normalise_keeps payload). reflexivity. }
  split.
  { intros j Hj. rewrite (data_quantum _ _ (Hdata j)).
    rewrite normalise_other by assumption. reflexivity. }
  rewrite (data_quantum _ _ (Hdata n)). apply normalise_quantum. assumption.
Qed.
(** The console plays no part in [enqueue]. *)
Lemma enqueue_console node s c :
  enqueue node (mkState (table s) (head s) (running s) c)
  = (fun s' => mkState (table s') (head s') (running s') c) <$> enqueue node s.
Proof.
  destruct node as [n|]; simpl; [|reflexivity].
  destruct (link n (normalise n (table s)) (head s)); reflexivity.
Qed.

(** X20.  While the running process is unfinished ([timeLeft] > 0), the two
    branches of lines 292-308 make the same change to the heap, the queue
    and the running slot; the second also prints. *)
Lemma preempt_branches_agree t nav r s :
  0 < timeLeft (table s !!! r) ->
  scheduling <$> preemptAtBoundary nav r s
  = scheduling <$> preemptMidSlice t nav r s.
Proof.
  intros Hpos. unfold preemptAtBoundary, preemptMidSlice.
  destruct (timeLeft (table s !!! r) <=? 0) eqn:Hle; [apply Z.leb_le in Hle; lia|].
  rewrite enqueue_console.
  destruct (enqueue (Some r) s); reflexivity.
Qed.
End EnqueueState.

(** * The invariant of the simulation loop *)

Section StepQueue.
Implicit Types (tbl : list Node) (p : ptr) (l : list nat).

(** The loop of [stepProcesses] on a chain: it ends, steps the nodes of the
    chain once each and nothing else. *)
Lemma stepQueue_spec l : forall tbl p fuel,
  isChain tbl p l -> (length l <= fuel)%nat ->
  exists tbl',
    stepQueue fuel tbl p = Some tbl' /\
    length tbl' = length tbl /\
    (forall j, j ∉ l -> tbl' !!! j = tbl !!! j) /\
    (forall j, j ∈ l -> tbl' !!! j = stepWaiting (tbl !!! j)).
Proof.
  induction l as [|x l IH]; intros tbl p fuel Hc Hf.
  - simpl in Hc. subst p. exists tbl. destruct fuel; simpl; repeat split; auto.
    all: intros j Hj; inversion Hj.
  - pose proof (isChain_NoDup _ _ _ Hc) as Hnd.
    apply NoDup_cons in Hnd as [Hxl Hnd].
    destruct Hc as (-> & Hx & Hc). destruct fuel as [|fuel]; [simpl in Hf; lia|].
    destruct (IH (alter stepWaiting x tbl) (next (tbl !!! x)) fuel)
      as (tbl' & Hrun & Hlen & Hout & Hin).
    { apply isChain_alter_keeps; auto. }
    { simpl in Hf. lia. }
    exists tbl'. simpl. split; [assumption|].
    split; [rewrite Hlen; apply length_alter|]. split.
    + intros j Hj. apply not_elem_of_cons in Hj as [Hjx Hj].
      rewrite Hout by assumption. apply lookup_alter_other. congruence.
    + intros j Hj. apply elem_of_cons in Hj as [->|Hj].
      * rewrite Hout by assumption. apply lookup_alter_same. assumption.
      * rewrite Hin by assumption. f_equal. apply lookup_alter_other.
        intros ->. contradiction.
Qed.

Lemma stepWaiting_next x : next (stepWaiting x) = next x.
Proof. reflexivity. Qed.

Lemma stepRunning_next x : next (stepRunning x) = next x.
Proof. reflexivity. Qed.
End StepQueue.

Section Invariant.
Variable tbl0 : list Node.
Local Abbreviation len := (length tbl0).
Implicit Types (F : nat -> Prop) (s : State) (q : list nat).

Lemma quantumOk_enqueue (tbl tbl' : list Node) prio fresh n q :
  (forall j, j <> n -> quantum (tbl' !!! j) = quantum (tbl !!! j)) ->
  quantum (tbl' !!! n)
  = (if Q <=? quantum (tbl !!! n) then 0 else quantum (tbl !!! n)) ->
  quantumOk tbl q -> quantumOk tbl' (place prio fresh n q).
Proof.
  intros Hother Hn [H0 HQ].
  assert (Hn' : 0 <= quantum (tbl' !!! n) < Q).
  { rewrite Hn. specialize (H0 n).
    destruct (Q <=? quantum (tbl !!! n)) eqn:Hle; [unfold Q; lia|].
    apply Z.leb_gt in Hle. lia. }
  split.
  - intros j. destruct (decide (j = n)) as [->|Hj]; [lia|].
    rewrite Hother by assumption. apply H0.
  - intros j Hj. apply elem_of_place in Hj.
    destruct (decide (j = n)) as [->|Hne]; [lia|].
    rewrite Hother by assumption. apply HQ. tauto.
Qed.

Lemma quantumOk_keeps (tbl tbl' : list Node) q q' :
  (forall j, quantum (tbl' !!! j) = quantum (tbl !!! j)) ->
  (forall j, j ∈ q' -> j ∈ q) ->
  quantumOk tbl q -> quantumOk tbl' q'.
Proof.
  intros Hsame Hsub [H0 HQ].
  split; intros j; rewrite Hsame; auto.
Qed.

Lemma Inv_weaken F F' s :
  (forall j, F' j -> F j) -> Inv tbl0 F s -> Inv tbl0 F' s.
Proof.
  intros Hsub (Hlen & Harr & q & Hc & Hfresh & Hrun & Hqok).
  split; [assumption|]. split; [assumption|]. exists q.
  split; [assumption|]. split; [intros j Hj; apply Hfresh; auto|].
  split; [|assumption].
  intros r Hr. destruct (Hrun r Hr) as (? & ? & ? & ?).
  repeat split; auto.
Qed.

Lemma payload_statics x y : payload x = payload y -> statics x = statics y.
Proof. unfold payload, statics. congruence. Qed.

Lemma statics_arrival x y : statics x = statics y -> arrival x = arrival y.
Proof. unfold statics. congruence. Qed.

(** The arriving process takes the running slot (lines 285 and 295). *)
Lemma take_Inv F s nav :
  Inv tbl0 F s -> F nav -> (nav < len)%nat ->
  Inv tbl0 (fun j => F j /\ j <> nav)
      (mkState (table s) (head s) (Some nav) (console s)).
Proof.
  intros (Hlen & Harr & q & Hc & Hfresh & Hrun & Hqok) HF Hnav.
  split; [assumption|]. split; [assumption|]. exists q. simpl.
  split; [assumption|]. split; [intros j [Hj _]; auto|].
  split; [|assumption].
  intros r [= <-]. destruct (Hfresh nav HF Hnav) as (Hq & Hu).
  split; [assumption|]. split; [assumption|]. split; [tauto|].
  intros _. apply Hu.
Qed.

(** The running process goes to the queue and the arriving one takes the
    slot (lines 298-299 and 306-307). *)
Lemma switch_Inv F s r nav :
  Inv tbl0 F s -> running s = Some r -> F nav -> (nav < len)%nat ->
  exists s1, enqueue (Some r) s = Some s1 /\
    Inv tbl0 (fun j => F j /\ j <> nav)
        (mkState (table s1) (head s1) (Some nav) (console s1)).
Proof.
  intros (Hlen & Harr & q & Hc & Hfresh & Hrun & Hqok) Hr HF Hnav.
  destruct (Hrun r Hr) as (Hrlt & Hrq & HrF & Hstale).
  destruct (enqueue_spec s r q) as
    (s1 & He & Hc1 & _ & _ & Hlen1 & Hother & Hpay & Hqo & Hqn); auto; [lia|].
  exists s1. split; [assumption|].
  split; [simpl; lia|]. split.
  { intros j. simpl. rewrite (payload_statics _ _ (Hpay j)). apply Harr. }
  eexists. simpl. split; [exact Hc1|]. split; [|split].
  3: { eapply quantumOk_enqueue; eassumption. }
  - intros j [Hj _] Hjlt. destruct (Hfresh j Hj Hjlt) as (Hjq & Hu).
    assert (j <> r) by (intros ->; contradiction).
    rewrite elem_of_place. rewrite Hother by assumption. tauto.
  - intros x [= <-]. destruct (Hfresh nav HF Hnav) as (Hq & Hu).
    assert (nav <> r) by (intros ->; contradiction).
    split; [assumption|]. split; [rewrite elem_of_place; tauto|].
    split; [tauto|]. intros _. rewrite Hother by assumption. apply Hu.
Qed.

(** The arriving process goes to the queue (line 314). *)
Lemma admit_Inv F s nav :
  Inv tbl0 F s -> F nav -> (nav < len)%nat ->
  exists s1, enqueue (Some nav) s = Some s1 /\
             Inv tbl0 (fun j => F j /\ j <> nav) s1.
Proof.
  intros (Hlen & Harr & q & Hc & Hfresh & Hrun & Hqok) HF Hnav.
  destruct (Hfresh nav HF Hnav) as (Hq & Hu).
  destruct (enqueue_spec s nav q) as
    (s1 & He & Hc1 & Hrun1 & _ & Hlen1 & Hother & Hpay & Hqo & Hqn);
    auto; [lia| |].
  { intros _. apply Hu. }
  exists s1. split; [assumption|].
  split; [lia|]. split.
  { intros j. rewrite (payload_statics _ _ (Hpay j)). apply Harr. }
  eexists. split; [exact Hc1|]. split; [|split].
  3: { eapply quantumOk_enqueue; eassumption. }
  - intros j [Hj Hne] Hjlt. destruct (Hfresh j Hj Hjlt) as (Hjq & Hju).
    rewrite elem_of_place. rewrite Hother by assumption. tauto.
  - intros r Hr. rewrite Hrun1 in Hr.
    destruct (Hrun r Hr) as (Hrlt & Hrq & HrF & _).
    assert (r <> nav) by (intros ->; contradiction).
    split; [assumption|]. split; [rewrite elem_of_place; tauto|].
    split; [tauto|]. intros Hnil. apply place_not_nil in Hnil. contradiction.
Qed.

Lemma arrive_Inv F s t nav :
  Inv tbl0 F s -> F nav -> (nav < len)%nat ->
  exists s', arrive t nav s = Some s' /\ Inv tbl0 (fun j => F j /\ j <> nav) s'.
Proof.
  intros HI HF Hnav. unfold arrive.
  destruct (running s) as [r|] eqn:Hr.
  - destruct (priority (table s !!! r) <? priority (table s !!! nav)).
    + destruct ((quantum (table s !!! r) =? 0) || (quantum (table s !!! r) =? 10)).
      * unfold preemptAtBoundary.
        destruct (timeLeft (table s !!! r) <=? 0).
        -- eexists. split; [reflexivity|]. apply take_Inv; assumption.
        -- destruct (switch_Inv F s r nav) as (s1 & He & HI1); auto.
           rewrite He. eexists. split; [reflexivity|]. exact HI1.
      * unfold preemptMidSlice.
        destruct (switch_Inv F
                    (mkState (table s) (head s) (running s)
                       (console s ++
                        [ContextSwitch t (id (table s !!! nav))
                                       (id (table s !!! r))])) r nav)
          as (s1 & He & HI1); auto.
        rewrite He. eexists. split; [reflexivity|]. exact HI1.
    + apply admit_Inv; assumption.
  - eexists. split; [reflexivity|]. apply take_Inv; assumption.
Qed.
End Invariant.

Section Loop.
Variable tbl0 : list Node.
Local Abbreviation len := (length tbl0).
Implicit Types (F : nat -> Prop) (s : State) (q : list nat).

(** Whatever was running, taking the head of a well-formed queue into the
    running slot gives a state of the invariant. *)
Lemma dequeue_Inv F s q :
  length (table s) = len ->
  (forall j, statics (table s !!! j) = statics (tbl0 !!! j)) ->
  isChain (table s) (head s) q ->
  (forall j, F j -> (j < len)%nat -> (j ∉ q) /\ untouched (table s !!! j)) ->
  quantumOk (table s) q ->
  Inv tbl0 F (dequeue s).
Proof.
  intros Hlen Harr Hc Hfresh Hqok. pose proof (isChain_NoDup _ _ _ Hc) as Hnd.
  split; [assumption|]. split; [assumption|].
  destruct q as [|h rest]; simpl in Hc.
  - exists []. unfold dequeue. rewrite Hc. simpl.
    split; [reflexivity|]. split; [assumption|].
    split; [intros r Hr; discriminate | assumption].
  - destruct Hc as (Hh & Hhlt & Hc). apply NoDup_cons in Hnd as [Hhr _].
    exists rest. unfold dequeue. rewrite Hh. simpl.
    split; [assumption|]. split; [|split].
    3: { eapply quantumOk_keeps; [reflexivity| |exact Hqok].
         intros j Hj. right. assumption. }
    + intros j Hj Hjlt. destruct (Hfresh j Hj Hjlt) as (Hjq & Hu).
      apply not_elem_of_cons in Hjq as [_ Hjq]. auto.
    + intros r [= <-]. split; [lia|]. split; [assumption|]. split.
      * intros HF. destruct (Hfresh h HF) as (Hq & _); [lia|].
        apply Hq. left.
      * intros ->. exact Hc.
Qed.

Lemma quantumCheck_Inv F s :
  Inv tbl0 F s ->
  exists s', quantumCheck s = Some s' /\ Inv tbl0 F s'.
Proof.
  intros HI. unfold quantumCheck.
  destruct (running s) as [r|] eqn:Hr; [|eauto].
  destruct (timeLeft (table s !!! r) =? 0);
    [|destruct (quantum (table s !!! r) =? Q); [|eauto]].
  - destruct HI as (Hlen & Harr & q & Hc & Hfresh & Hrun & Hqok).
    destruct (Hrun r Hr) as (Hrlt & Hrq & HrF & _).
    eexists. split; [reflexivity|]. apply (dequeue_Inv F _ q); simpl.
    + rewrite length_alter. assumption.
    + intros j. rewrite (lookup_alter_keeps statics) by reflexivity. apply Harr.
    + apply isChain_alter_notin; assumption.
    + intros j Hj Hjlt. destruct (Hfresh j Hj Hjlt) as (Hjq & Hu).
      split; [assumption|]. rewrite lookup_alter_other; [assumption|].
      intros ->. contradiction.
    + eapply quantumOk_keeps; [|intros j Hj; exact Hj|exact Hqok].
      intros j. apply (lookup_alter_keeps quantum). reflexivity.
  - destruct HI as (Hlen & Harr & q & Hc & Hfresh & Hrun & Hqok).
    destruct (Hrun r Hr) as (Hrlt & Hrq & HrF & Hstale).
    destruct (enqueue_spec s r q) as
      (s1 & He & Hc1 & _ & _ & Hlen1 & Hother & Hpay & Hqo & Hqn);
      auto; [lia|].
    rewrite He. eexists. split; [reflexivity|].
    eapply dequeue_Inv; [lia| |exact Hc1| |].
    + intros j. rewrite (payload_statics _ _ (Hpay j)). apply Harr.
    + intros j Hj Hjlt. destruct (Hfresh j Hj Hjlt) as (Hjq & Hu).
      assert (j <> r) by (intros ->; contradiction).
      rewrite elem_of_place. rewrite Hother by assumption. tauto.
    + eapply quantumOk_enqueue; eassumption.
Qed.

Lemma stepProcesses_Inv F s :
  Inv tbl0 F s ->
  exists s', stepProcesses s = Some s' /\ Inv tbl0 F s'.
Proof.
  intros (Hlen & Harr & q & Hc & Hfresh & Hrun & Hq0 & HqQ).
  unfold stepProcesses.
  set (tbl := match running s with
              | Some r => alter stepRunning r (table s)
              | None => table s
              end).
  assert (Hlen1 : length tbl = len).
  { subst tbl. destruct (running s); [rewrite length_alter|]; assumption. }
  assert (Hc1 : isChain tbl (head s) q).
  { subst tbl. destruct (running s);
      [apply isChain_alter_keeps; auto using stepRunning_next | assumption]. }
  assert (Hkeep : forall {A} (g : Node -> A) j,
             (forall x, g (stepRunning x) = g x) ->
             g (tbl !!! j) = g (table s !!! j)).
  { intros A g j Hg. subst tbl.
    destruct (running s); [apply lookup_alter_keeps; assumption | reflexivity]. }
  assert (Hsame : forall j, running s <> Some j -> tbl !!! j = table s !!! j).
  { intros j Hj. subst tbl. destruct (running s) as [r|]; [|reflexivity].
    apply lookup_alter_other. congruence. }
  destruct (stepQueue_spec q tbl (head s) (length tbl) Hc1)
    as (tbl' & Hrun' & Hlen' & Hout & Hin).
  { eapply isChain_length; eassumption. }
  rewrite Hrun'. eexists. split; [reflexivity|]. simpl.
  assert (Hkeep' : forall {A} (g : Node -> A) j,
             (forall x, g (stepWaiting x) = g x) ->
             g (tbl' !!! j) = g (tbl !!! j)).
  { intros A g j Hg. destruct (decide (j ∈ q)) as [Hj|Hj].
    - rewrite Hin by assumption. apply Hg.
    - rewrite Hout by assumption. reflexivity. }
  unfold Inv. simpl. split; [lia|]. split.
  { intros j. rewrite (Hkeep' _ statics), (Hkeep _ statics); auto. }
  exists q. split.
  { clear -Hc1 Hkeep' Hlen'. revert Hc1. generalize (head s) as p.
    induction q as [|x q IH]; intros p Hc; simpl in *; [assumption|].
    destruct Hc as (-> & Hx & Hc). split; [reflexivity|].
    split; [lia|]. rewrite (Hkeep' _ next) by reflexivity. auto. }
  split; [|split; [|split]].
  - intros j Hj Hjlt. destruct (Hfresh j Hj Hjlt) as (Hjq & Hu).
    split; [assumption|]. rewrite Hout, Hsame; [assumption | | assumption].
    intros Hr. destruct (Hrun j Hr) as (_ & _ & HnF & _). contradiction.
  - intros r Hr. destruct (Hrun r Hr) as (Hrlt & Hrq & HrF & Hstale).
    repeat split; auto. intros Hq.
    rewrite (Hkeep' _ next), (Hkeep _ next); auto.
  - intros j. rewrite (Hkeep' _ quantum) by reflexivity. subst tbl.
    destruct (running s) as [r|]; [|apply Hq0].
    rewrite list_lookup_total_alter. pose proof (Hq0 r) as Hr0.
    case_decide as Hd; [simpl; lia | apply Hq0].
  - intros j Hj. rewrite (Hkeep' _ quantum) by reflexivity.
    rewrite Hsame; [auto|].
    intros Hr. destruct (Hrun j Hr) as (_ & Hjq & _). contradiction.
Qed.

Lemma scanArrivals_Inv t navs : forall s flag,
  0 <= t -> NoDup navs -> (forall nav, nav ∈ navs -> (nav < len)%nat) ->
  Inv tbl0 (pending tbl0 t navs) s ->
  exists s' flag', scanArrivals t navs s flag = Some (s', flag') /\
                   Inv tbl0 (pending tbl0 t []) s'.
Proof.
  induction navs as [|nav rest IH]; intros s flag Ht0 Hnd Hb HI.
  - simpl. eauto.
  - apply NoDup_cons in Hnd as [Hnr Hnd]. simpl.
    assert (Hb' : forall x, x ∈ rest -> (x < len)%nat).
    { intros x Hx. apply Hb. right. assumption. }
    destruct (arrival (table s !!! nav) =? t) eqn:Ht.
    + apply Z.eqb_eq in Ht.
      assert (Harr : arrival (tbl0 !!! nav) = t).
      { destruct HI as (_ & Harr & _).
        rewrite <- (statics_arrival _ _ (Harr nav)). assumption. }
      destruct (arrive_Inv tbl0 _ s t nav HI) as (s' & Ha & HI').
      { right. right. split; [assumption | left]. }
      { apply Hb. left. }
      rewrite Ha. apply IH; [assumption | assumption | assumption |].
      eapply Inv_weaken; [|exact HI'].
      intros j [Hj|[Hj|[Hj Hin]]]; (split; [unfold pending|]).
      * auto.
      * intros ->. lia.
      * auto.
      * intros ->. lia.
      * right. right. split; [assumption | right; assumption].
      * intros ->. contradiction.
    + apply IH; [assumption | assumption | assumption |].
      eapply Inv_weaken; [|exact HI].
      intros j [Hj|[Hj|[Hj Hin]]]; unfold pending; auto.
      right. right. split; [assumption | right; assumption].
Qed.

Lemma tick_Inv t s :
  0 <= t -> Inv tbl0 (notArrived tbl0 t) s ->
  exists s', tick t s = Some s' /\ Inv tbl0 (notArrived tbl0 (t + 1)) s'.
Proof.
  intros Ht0 HI. unfold tick.
  assert (Hlen : length (table s) = len) by apply HI.
  destruct (scanArrivals_Inv t (seq 0 len) s false) as (s1 & flag & Hs & HI1).
  { assumption. }
  { apply NoDup_seq. }
  { intros nav Hnav. apply elem_of_seq in Hnav. lia. }
  { eapply Inv_weaken; [|exact HI].
    intros j [Hj|[Hj|[Hj _]]]; unfold notArrived; lia. }
  rewrite Hlen, Hs.
  assert (HI2 : exists s2, (if flag then Some s1 else quantumCheck s1) = Some s2
                           /\ Inv tbl0 (pending tbl0 t []) s2).
  { destruct flag; [eauto | apply quantumCheck_Inv; assumption]. }
  destruct HI2 as (s2 & -> & HI2).
  destruct (stepProcesses_Inv _ s2 HI2) as (s3 & Hs3 & HI3).
  exists s3. split; [assumption|].
  eapply Inv_weaken; [|exact HI3].
  intros j [Hj|Hj]; unfold pending; [auto | right; left; lia].
Qed.
End Loop.

(** * Reachable states *)

Section Reachable.
Variable ds : list Descriptor.
Local Abbreviation tbl0 := (loadTable ds).

Lemma loadTable_length : length (loadTable ds) = length ds.
Proof. apply length_fmap. Qed.

Lemma loadTable_untouched j : untouched (loadTable ds !!! j).
Proof.
  unfold loadTable. revert j.
  induction ds as [|[[[i p] b] a] l IH]; intros [|j]; simpl;
    try (repeat split; reflexivity).
  apply IH.
Qed.

Lemma loadTable_lookup j i p b a :
  ds !! j = Some (i, p, b, a) -> loadTable ds !!! j = newNode i p b a.
Proof.
  unfold loadTable. revert j.
  induction ds as [|d l IH]; intros [|j] Hj; simpl in *; try discriminate.
  - injection Hj as ->. reflexivity.
  - apply IH. assumption.
Qed.

Lemma initial_Inv : Inv tbl0 (notArrived tbl0 0) (initial ds).
Proof.
  split; [reflexivity|]. split; [reflexivity|]. exists []. simpl.
  split; [reflexivity|]. split; [|split; [|split]].
  - intros j _ _. split; [apply not_elem_of_nil | apply loadTable_untouched].
  - intros r Hr. discriminate.
  - intros j. destruct (loadTable_untouched j) as (_ & _ & _ & -> & _). lia.
  - intros j Hj. inversion Hj.
Qed.

(** The loop of [main] never gets stuck, and every state it passes through
    between two ticks satisfies the invariant. *)
Lemma ticks_Inv k :
  exists s, ticks k (initial ds) = Some s /\
            Inv tbl0 (notArrived tbl0 (Z.of_nat k)) s.
Proof.
  induction k as [|k (s & Hs & HI)].
  - exists (initial ds). split; [reflexivity | apply initial_Inv].
  - destruct (tick_Inv tbl0 (Z.of_nat k) s) as (s' & Ht & HI'); [lia|assumption|].
    exists s'. simpl. rewrite Hs. split; [assumption|].
    replace (Z.of_nat (S k)) with (Z.of_nat k + 1) by lia. assumption.
Qed.
End Reachable.

(** X21.  In every state between two ticks no quantum is negative and the
    queued processes have a quantum below [Q]: what lines 131-133 ensure. *)
Lemma queued_quantum_below_Q (ds : list Descriptor) (k : nat) :
  exists s,
    ticks k (initial ds) = Some s /\
    (forall j, 0 <= quantum (table s !!! j)) /\
    (forall j, j ∈ readyQueue s -> quantum (table s !!! j) < Q).
Proof.
  destruct (ticks_Inv ds k) as (s & Hs & _ & _ & q & Hc & _ & _ & H0 & HQ).
  exists s. rewrite (readyQueue_isChain s q Hc). auto.
Qed.

(** * The counters only move one way *)

Section Counters.
Implicit Types (s : State) (tbl : list Node).

Lemma advances_refl x : advances x x.
Proof. repeat split; lia. Qed.

Lemma advances_trans x y z : advances x y -> advances y z -> advances x z.
Proof.
  intros (? & ? & ? & ?) (? & ? & ? & ?).
  split; [congruence|]. repeat split; lia.
Qed.

Lemma payload_advances x y : payload x = payload y -> advances x y.
Proof.
  intros H. unfold payload in H. injection H as ? ? ? ? Htl Hta Hw.
  unfold advances, statics. rewrite Htl, Hta, Hw.
  split; [congruence|]. repeat split; lia.
Qed.

Lemma link_payload n tbl hd tbl' hd' :
  link n tbl hd = Some (tbl', hd') ->
  forall j, payload (tbl' !!! j) = payload (tbl !!! j).
Proof.
  unfold link. intros H j.
  repeat match type of H with
         | context [match ?c with _ => _ end] => destruct c
         end;
    try discriminate; injection H as <- _;
    rewrite ?(lookup_alter_keeps payload) by reflexivity; reflexivity.
Qed.

Lemma enqueue_payload node s s' :
  enqueue node s = Some s' ->
  forall j, payload (table s' !!! j) = payload (table s !!! j).
Proof.
  destruct node as [n|]; simpl; [|intros [= <-]; reflexivity].
  destruct (link n (normalise n (table s)) (head s)) as [[tbl' hd']|] eqn:Hl;
    [|discriminate].
  intros [= <-] j. simpl. rewrite (link_payload _ _ _ _ _ Hl).
  apply (normalise_keeps payload). reflexivity.
Qed.

Lemma quantumCheck_payload s s' :
  quantumCheck s = Some s' ->
  forall j, payload (table s' !!! j) = payload (table s !!! j).
Proof.
  unfold quantumCheck. destruct (running s) as [r|]; [|intros [= <-]; reflexivity].
  destruct (timeLeft (table s !!! r) =? 0).
  { intros [= <-] j. simpl. apply (lookup_alter_keeps payload). reflexivity. }
  destruct (quantum (table s !!! r) =? Q); [|intros [= <-]; reflexivity].
  destruct (enqueue (Some r) s) as [s1|] eqn:He; [|discriminate].
  intros [= <-] j. simpl. eapply enqueue_payload. eassumption.
Qed.

Lemma arrive_payload t nav s s' :
  arrive t nav s = Some s' ->
  forall j, payload (table s' !!! j) = payload (table s !!! j).
Proof.
  unfold arrive, preemptAtBoundary, preemptMidSlice.
  destruct (running s) as [r|]; [|intros [= <-]; reflexivity].
  destruct (priority (table s !!! r) <? priority (table s !!! nav));
    [|apply enqueue_payload].
  destruct ((quantum (table s !!! r) =? 0) || (quantum (table s !!! r) =? 10)).
  - destruct (timeLeft (table s !!! r) <=? 0); [intros [= <-]; reflexivity|].
    destruct (enqueue (Some r) s) as [s1|] eqn:He; [|discriminate].
    intros [= <-] j. simpl. eapply enqueue_payload. eassumption.
  - match goal with
    | |- context [enqueue ?a ?b] => destruct (enqueue a b) as [s1|] eqn:He
    end; [|discriminate].
    intros [= <-] j. simpl. apply (enqueue_payload _ _ _ He).
Qed.

Lemma scanArrivals_payload t navs : forall s flag s' flag',
  scanArrivals t navs s flag = Some (s', flag') ->
  forall j, payload (table s' !!! j) = payload (table s !!! j).
Proof.
  induction navs as [|nav rest IH]; intros s flag s' flag' H j; simpl in H.
  - injection H as <- _. reflexivity.
  - destruct (arrival (table s !!! nav) =? t); [|eauto].
    destruct (arrive t nav s) as [s1|] eqn:Ha; [|discriminate].
    rewrite (IH _ _ _ _ H). eapply arrive_payload. eassumption.
Qed.

Lemma alter_advances (f : Node -> Node) tbl i j :
  (forall x, advances x (f x)) -> advances (tbl !!! j) (alter f i tbl !!! j).
Proof.
  intros Hf. rewrite list_lookup_total_alter.
  case_decide as Hd; [destruct Hd as [-> _]; apply Hf | apply advances_refl].
Qed.

Lemma stepRunning_advances x : advances x (stepRunning x).
Proof. unfold advances, statics. simpl. repeat split; lia. Qed.

Lemma stepWaiting_advances x : advances x (stepWaiting x).
Proof. unfold advances, statics. simpl. repeat split; lia. Qed.

Lemma stepQueue_advances fuel : forall tbl p tbl',
  stepQueue fuel tbl p = Some tbl' ->
  forall j, advances (tbl !!! j) (tbl' !!! j).
Proof.
  induction fuel as [|fuel IH]; intros tbl [i|] tbl' H j; simpl in H;
    try discriminate; try (injection H as <-; apply advances_refl).
  eapply advances_trans; [|eapply IH; eassumption].
  apply alter_advances, stepWaiting_advances.
Qed.

Lemma stepProcesses_advances s s' :
  stepProcesses s = Some s' ->
  forall j, advances (table s !!! j) (table s' !!! j).
Proof.
  unfold stepProcesses. intros H j.
  match type of H with
  | _ <$> stepQueue ?f ?t ?p = _ => destruct (stepQueue f t p) as [tbl'|] eqn:Hq
  end; [|discriminate].
  injection H as <-. simpl.
  eapply advances_trans; [|eapply stepQueue_advances; eassumption].
  destruct (running s); [apply alter_advances, stepRunning_advances
                        | apply advances_refl].
Qed.

Lemma tick_advances t s s' :
  tick t s = Some s' -> forall j, advances (table s !!! j) (table s' !!! j).
Proof.
  unfold tick. intros H j.
  destruct (scanArrivals t _ s false) as [[s1 flag]|] eqn:Hs; [|discriminate].
  assert (H2 : exists s2, (if flag then Some s1 else quantumCheck s1) = Some s2
                          /\ stepProcesses s2 = Some s').
  { destruct (if flag then Some s1 else quantumCheck s1); [eauto|discriminate]. }
  destruct H2 as (s2 & Hq & Hstep).
  eapply advances_trans; [|eapply stepProcesses_advances; eassumption].
  apply payload_advances.
  rewrite <- (scanArrivals_payload _ _ _ _ _ _ Hs j).
  destruct flag; [injection Hq as <-; reflexivity|].
  symmetry. eapply quantumCheck_payload. eassumption.
Qed.

(** X19.  From one tick to the next, and so between any two ticks of the
    loop of [main], a process's wait and turnaround do not decrease, its
    [timeLeft] does not increase, and the fields read from the input do not
    change; for tables whose bursts are not within [N] of [INT_MIN], where
    the decrement of line 208 does not overflow. *)
Lemma counters_monotone (ds : list Descriptor) (k m : nat) s s' :
  burstsFit ds ->
  (k + m <= Z.to_nat N)%nat ->
  ticks k (initial ds) = Some s ->
  ticks (k + m) (initial ds) = Some s' ->
  forall j, advances (table s !!! j) (table s' !!! j).
Proof.
  intros _ _ Hs. revert s'. induction m as [|m IH]; intros s' Hs' j.
  - rewrite Nat.add_0_r in Hs'. assert (s' = s) by congruence. subst.
    apply advances_refl.
  - rewrite Nat.add_succ_r in Hs'. simpl in Hs'.
    destruct (ticks (k + m) (initial ds)) as [s1|] eqn:H1; [|discriminate].
    eapply advances_trans; [apply IH; reflexivity|].
    eapply tick_advances. eassumption.
Qed.
End Counters.

(** * The model on three small schedules *)

(** One process of burst 5 runs ticks 0-4. *)
Example single_process :
  output <$> simulate [("A"%string, 1, 5, 0)] = Some [("A"%string, 5, 0)].
Proof. vm_compute. reflexivity. Qed.

(** [B] preempts [A] at tick 2 and runs three ticks; [A] waits for them. *)
Example simple_preemption :
  output <$> simulate [("A"%string, 1, 20, 0); ("B"%string, 5, 3, 2)]
  = Some [("A"%string, 23, 3); ("B"%string, 3, 0)].
Proof. vm_compute. reflexivity. Qed.

(** Two processes of one priority and burst 15 alternate every [Q] ticks. *)
Example round_robin :
  output <$> simulate [("A"%string, 1, 15, 0); ("B"%string, 1, 15, 0)]
  = Some [("A"%string, 25, 10); ("B"%string, 30, 15)].
Proof. vm_compute. reflexivity. Qed.

(** * The claims *)

(** C8.  Between two ticks of any execution the running process is not in
    the ready queue: for every input and every number [k] of ticks, the loop
    reaches a state after [k] ticks, the [next] links from [head] form a
    chain that ends (so [readyQueue] lists all of it), and the process in
    the running slot, if there is one, is not among its entries. *)
Theorem running_not_in_readyQueue (ds : list Descriptor) (k : nat) :
  exists s,
    ticks k (initial ds) = Some s /\
    isChain (table s) (head s) (readyQueue s) /\
    forall r, running s = Some r -> r ∉ readyQueue s.
Proof.
  destruct (ticks_Inv ds k) as (s & Hs & _ & _ & q & Hc & _ & Hrun & _).
  exists s. rewrite (readyQueue_isChain s q Hc).
  split; [assumption|]. split; [assumption|].
  intros r Hr. apply (Hrun r Hr).
Qed.

(** C10.  A process whose arrival time is outside [0, N) is never running
    and never in the ready queue, at any tick of the simulation, and
    [output] reports turnaround 0 and wait 0 for it. *)
Theorem outside_horizon_never_scheduled
    (ds : list Descriptor) (j : nat) (i : string) (p b a : Z) :
  ds !! j = Some (i, p, b, a) ->
  a < 0 \/ N <= a ->
  (forall k, (k <= Z.to_nat N)%nat ->
     exists s, ticks k (initial ds) = Some s /\
               running s <> Some j /\ j ∉ readyQueue s) /\
  (exists s, simulate ds = Some s /\ output s !! j = Some (i, 0, 0)).
Proof.
  intros Hj Ha.
  pose proof (loadTable_lookup ds j i p b a Hj) as Hnode.
  assert (Hjlt : (j < length (loadTable ds))%nat).
  { rewrite loadTable_length. eapply lookup_lt_Some. eassumption. }
  assert (Hk : forall k, (k <= Z.to_nat N)%nat ->
             exists s, ticks k (initial ds) = Some s /\
                       running s <> Some j /\ (j ∉ readyQueue s) /\
                       output s !! j = Some (i, 0, 0)).
  { intros k Hk.
    destruct (ticks_Inv ds k)
      as (s & Hs & Hlen & Hst & q & Hc & Hfresh & Hrun & _).
    assert (HF : notArrived (loadTable ds) (Z.of_nat k) j).
    { unfold notArrived. rewrite Hnode. simpl. lia. }
    destruct (Hfresh j HF Hjlt) as (Hjq & _ & Htu & Hw & _).
    exists s. rewrite (readyQueue_isChain s q Hc).
    split; [assumption|]. split.
    { intros Hr. destruct (Hrun j Hr) as (_ & _ & HnF & _). contradiction. }
    split; [assumption|].
    unfold output. rewrite list_lookup_fmap.
    rewrite (list_lookup_lookup_total_lt (table s) j) by lia. simpl.
    pose proof (Hst j) as Hid. rewrite Hnode in Hid. unfold statics in Hid.
    simpl in Hid. congruence. }
  split.
  - intros k Hle. destruct (Hk k Hle) as (s & ? & ? & ? & _). eauto.
  - destruct (Hk (Z.to_nat N)) as (s & ? & _ & _ & ?); [lia|]. eauto.
Qed.

Lemma outside_horizon_never_scheduled_witness :
  (forall k, (k <= Z.to_nat N)%nat ->
     exists s, ticks k (initial lateInput) = Some s /\
               running s <> Some 1%nat /\ 1%nat ∉ readyQueue s) /\
  (exists s, simulate lateInput = Some s /\
             output s !! 1%nat = Some ("P2"%string, 0, 0)).
Proof.
  apply (outside_horizon_never_scheduled lateInput 1 "P2" 2 3 200).
  - reflexivity.
  - right. unfold N. lia.
Defined.

(** What does hold of a process that is linked into the ready queue with a
    quantum other than 0 (the quantum it has once lines 131-133 have run: it
    was not 0 and, being below [Q], was not reset), whatever the queue
    holds; where it lands among entries of other priorities is the subject
    of [preempted_process_not_at_front_of_class] below.  [enqueue] returns,
    the queue is the old one with the process put in once, every entry
    ahead of it has strictly higher priority, so every other entry of its
    own priority comes after it, and it is the new head when no queued entry
    has a higher priority.  The queue is any chain of
    [next] links that ends, the process is not in it, and it carries no
    stale link when the queue is empty, as in every state of the loop (see
    [Inv]). *)
Theorem enqueue_preempted_front (s : State) (n : nat) (q : list nat) :
  isChain (table s) (head s) q ->
  n ∉ q ->
  (n < length (table s))%nat ->
  (q = [] -> next (table s !!! n) = None) ->
  quantum (normalise n (table s) !!! n) <> 0 ->
  exists s' before after,
    enqueue (Some n) s = Some s' /\
    q = before ++ after /\
    readyQueue s' = before ++ n :: after /\
    (forall j, priority (table s' !!! j) = priority (table s !!! j)) /\
    (forall j, j ∈ before ->
               priority (table s !!! n) < priority (table s !!! j)) /\
    (forall j, j ∈ q -> priority (table s !!! j) = priority (table s !!! n) ->
               j ∈ after) /\
    ((forall j, j ∈ q -> priority (table s !!! j) <= priority (table s !!! n)) ->
     head s' = Some n).
Proof.
  intros Hc Hn Hlt Hstale Hq0.
  destruct (enqueue_spec s n q Hc Hn Hlt Hstale)
    as (s' & He & Hc' & _ & _ & _ & _ & Hpay & _).
  assert (Hfr : freshSlice (table s !!! n) = false).
  { rewrite <- normalise_fresh by assumption. apply Z.eqb_neq. assumption. }
  rewrite Hfr in Hc'.
  assert (Hsplit : exists before after,
             q = before ++ after /\
             place (prioOf (table s)) false n q = before ++ n :: after /\
             (forall j, j ∈ before -> prioOf (table s) n < prioOf (table s) j) /\
             (before = [] \/ exists h, before = [h] /\ head s = Some h)).
  { destruct q as [|h rest]; [exists [], []; simpl; repeat split; auto;
                                intros j Hj; inversion Hj|].
    pose proof Hc as (Hh & _). unfold place.
    destruct (prioOf (table s) h <? prioOf (table s) n) eqn:Hlt1;
      [|destruct (prioOf (table s) n =? prioOf (table s) h) eqn:Heq1].
    - exists [], (h :: rest). repeat split; auto. intros j Hj; inversion Hj.
    - exists [], (h :: rest). repeat split; auto. intros j Hj; inversion Hj.
    - exists [h], rest. apply Z.ltb_ge in Hlt1. apply Z.eqb_neq in Heq1.
      split; [reflexivity|]. split.
      { simpl. f_equal. destruct rest as [|x rest]; simpl; [reflexivity|].
        rewrite andb_false_r. reflexivity. }
      split; [|right; eauto].
      intros j Hj. apply list_elem_of_singleton in Hj as ->. lia. }
  destruct Hsplit as (before & after & Hq & Hpl & Hhigh & Hshape).
  rewrite Hpl in Hc'. exists s', before, after.
  split; [assumption|]. split; [assumption|].
  split; [apply readyQueue_isChain; assumption|].
  assert (Hprio : forall j, priority (table s' !!! j) = priority (table s !!! j)).
  { intros j. specialize (Hpay j). unfold payload in Hpay. congruence. }
  split; [assumption|]. split; [exact Hhigh|]. split.
  - intros j Hj Hjn. subst q. apply elem_of_app in Hj as [Hj|Hj]; [|assumption].
    specialize (Hhigh j Hj). unfold prioOf in Hhigh. lia.
  - intros Hmax. destruct Hshape as [->|(h & -> & Hh)].
    + simpl in Hc'. apply Hc'.
    + assert (Hhq : h ∈ q) by (subst q; left).
      specialize (Hmax h Hhq). specialize (Hhigh h (list_elem_of_here _ _)).
      unfold prioOf in Hhigh. lia.
Qed.

Lemma enqueue_preempted_front_witness :
  exists s' before after,
    enqueue (Some 0%nat) midSliceState = Some s' /\
    [2%nat] = before ++ after /\
    readyQueue s' = before ++ 0%nat :: after /\
    (forall j, priority (table s' !!! j) = priority (table midSliceState !!! j)) /\
    (forall j, j ∈ before ->
               priority (table midSliceState !!! 0%nat)
               < priority (table midSliceState !!! j)) /\
    (forall j, j ∈ [2%nat] ->
               priority (table midSliceState !!! j)
               = priority (table midSliceState !!! 0%nat) ->
               j ∈ after) /\
    ((forall j, j ∈ [2%nat] ->
                priority (table midSliceState !!! j)
                <= priority (table midSliceState !!! 0%nat)) ->
     head s' = Some 0%nat).
Proof.
  apply (enqueue_preempted_front midSliceState 0 [2%nat]).
  - simpl. repeat split; lia.
  - intros Hin. apply list_elem_of_singleton in Hin. discriminate.
  - simpl. lia.
  - discriminate.
  - vm_compute. discriminate.
Defined.

(** * Where the program departs from its description *)

(** C1.  The ready queue does not stay sorted.  With [unsortedInput], after
    the first tick [P1] runs and the queue holds [P2], [P4], [P3], of
    priorities 5, 1, 3: line 156 goes on while the next entry's priority is
    at most the new one's, so [P4] stops right behind the head. *)
Theorem readyQueue_not_sorted :
  exists s,
    ticks 1 (initial unsortedInput) = Some s /\
    running s = Some 0%nat /\
    readyQueue s = [1%nat; 3%nat; 2%nat] /\
    priorities s = [5; 1; 3] /\
    ~ descending (priorities s).
Proof.
  eexists. split; [vm_compute; reflexivity|].
  split; [reflexivity|]. split; [reflexivity|]. split; [reflexivity|].
  intros H. specialize (H 1%nat 2%nat 1 3). vm_compute in H.
  apply H; auto.
Qed.

(** C2.  A finished process is put back in the ready queue when the arrival
    finds it inside its slice.  With [finishedInput], at tick 2 [A] is
    running with [timeLeft] 0 and quantum 2; [B] arrives with a higher
    priority, the test of line 292 fails, and lines 306-307 enqueue [A]:
    after the arrival [B] runs and the queue holds [A]. *)
Theorem finished_process_requeued :
  exists s s',
    ticks 2 (initial finishedInput) = Some s /\
    running s = Some 0%nat /\
    timeLeft (table s !!! 0%nat) = 0 /\
    quantum (table s !!! 0%nat) = 2 /\
    priority (table s !!! 0%nat) < priority (table s !!! 1%nat) /\
    arrival (table s !!! 1%nat) = 2 /\
    arrive 2 1 s = Some s' /\
    running s' = Some 1%nat /\
    readyQueue s' = [0%nat].
Proof. do 2 eexists. by_evaluation. Qed.

(** C4.  A process that starts a new slice does not go to the back of its
    priority class.  With [equalInput], when [P4] arrives the queue holds
    [P2], [P3], both of its priority, and its quantum is 0; lines 149-150
    link it right behind the head, ahead of [P3]. *)
Theorem fresh_process_not_at_back :
  exists s0 s1,
    scanArrivals 0 [0%nat; 1%nat; 2%nat] (initial equalInput) false
      = Some (s0, true) /\
    readyQueue s0 = [1%nat; 2%nat] /\
    priorities s0 = [5; 5] /\
    priority (table s0 !!! 3%nat) = 5 /\
    quantum (table s0 !!! 3%nat) = 0 /\
    enqueue (Some 3%nat) s0 = Some s1 /\
    readyQueue s1 = [1%nat; 3%nat; 2%nat].
Proof. do 2 eexists. by_evaluation. Qed.

(** C5.  [timeLeft] goes below 0.  With [negativeInput], [A] has [timeLeft]
    0 after tick 0; at tick 1 [B] arrives, so line 323 skips [quantumCheck],
    [A] stays in the running slot and line 208 takes its [timeLeft] to -1. *)
Theorem timeLeft_negative :
  exists s1 s2,
    ticks 1 (initial negativeInput) = Some s1 /\
    timeLeft (table s1 !!! 0%nat) = 0 /\
    ticks 2 (initial negativeInput) = Some s2 /\
    running s2 = Some 0%nat /\
    timeLeft (table s2 !!! 0%nat) = -1.
Proof. do 2 eexists. by_evaluation. Qed.

(** C6.  A process whose [timeLeft] has reached 0 comes back.  With
    [finishedInput], [A] has [timeLeft] 0 after tick 1; after tick 2 it is
    in the ready queue, and after tick 5 it is running again. *)
Theorem terminated_process_returns :
  exists s2 s3 s6,
    ticks 2 (initial finishedInput) = Some s2 /\
    timeLeft (table s2 !!! 0%nat) = 0 /\
    ticks 3 (initial finishedInput) = Some s3 /\
    running s3 = Some 1%nat /\
    readyQueue s3 = [0%nat] /\
    ticks 6 (initial finishedInput) = Some s6 /\
    running s6 = Some 0%nat /\
    timeLeft (table s6 !!! 0%nat) = -1.
Proof. do 3 eexists. by_evaluation. Qed.

(** C7.  The quantum of the running process goes above [Q].  With
    [overrunInput], [A] has quantum 10 after tick 9; at tick 10 [B] arrives,
    so [quantumCheck] is skipped and line 207 takes the quantum to 11. *)
Theorem quantum_exceeds_Q :
  exists s,
    ticks 11 (initial overrunInput) = Some s /\
    running s = Some 0%nat /\
    quantum (table s !!! 0%nat) = 11 /\
    Q < quantum (table s !!! 0%nat).
Proof. eexists. by_evaluation. Qed.

(** C9.  The two branches of lines 292-308 are different transitions.  In
    the state [finishedInput] reaches at tick 2, where the second branch is
    taken, line 306 puts the finished [A] in the ready queue; the first
    branch would drop it at line 295. *)
Theorem preempt_branches_differ :
  exists s sa sb,
    ticks 2 (initial finishedInput) = Some s /\
    running s = Some 0%nat /\
    preemptAtBoundary 1 0 s = Some sa /\
    preemptMidSlice 2 1 0 s = Some sb /\
    running sa = Some 1%nat /\ readyQueue sa = [] /\
    running sb = Some 1%nat /\ readyQueue sb = [0%nat].
Proof. do 3 eexists. by_evaluation. Qed.

(** C3.  A process preempted inside its slice does not go to the front of
    its priority class.  With [frontInput], at tick 5 [P6], of priority 5,
    is running with quantum 2 and the queue holds [P5], [P2], [P3], of
    priorities 10, 8, 5, in order; [P7] arrives with priority 6 and lines
    306-307 enqueue [P6].  Its priority is below the head's, so lines
    153-162 apply; the loop of line 156 does not advance (the quantum is not
    0) and [P6] is linked right behind the head: the queue becomes [P5],
    [P6], [P2], [P3], of priorities 10, 5, 8, 5, with [P6] ahead of [P2], of
    higher priority, and apart from [P3], of its own. *)
Theorem preempted_process_not_at_front_of_class :
  exists s s',
    ticks 5 (initial frontInput) = Some s /\
    running s = Some 5%nat /\
    quantum (table s !!! 5%nat) = 2 /\
    readyQueue s = [4%nat; 1%nat; 2%nat] /\
    priorities s = [10; 8; 5] /\
    priority (table s !!! 5%nat) = 5 /\
    arrival (table s !!! 6%nat) = 5 /\
    arrive 5 6 s = Some s' /\
    running s' = Some 6%nat /\
    readyQueue s' = [4%nat; 5%nat; 1%nat; 2%nat] /\
    priorities s' = [10; 5; 8; 5] /\
    ~ descending (priorities s').
Proof.
  do 2 eexists.
  repeat match goal with |- _ /\ _ => split end;
    try (vm_compute; reflexivity).
  intros H. specialize (H 1%nat 2%nat 5 8). vm_compute in H.
  apply H; auto.
Qed.

(** * Further properties of the queue operations *)

(** X1.  [enqueue] on a queue that is a chain of links that ends, for a node
    outside it whose own link is [NULL] when the queue is empty (line 137
    does not clear it): it returns, the new queue is the old one with the
    node put in once (no entry is lost or moved past another), the running
    slot and the console are as before, and no field of any node other than
    links and quanta changes. *)
Theorem enqueue_inserts_once (s : State) (n : nat) (q : list nat) :
  isChain (table s) (head s) q ->
  n ∉ q ->
  (n < length (table s))%nat ->
  (q = [] -> next (table s !!! n) = None) ->
  exists s' before after,
    enqueue (Some n) s = Some s' /\
    q = before ++ after /\
    readyQueue s' = before ++ n :: after /\
    isChain (table s') (head s') (readyQueue s') /\
    running s' = running s /\
    console s' = console s /\
    length (table s') = length (table s) /\
    forall j, payload (table s' !!! j) = payload (table s !!! j).
Proof.
  intros Hc Hn Hlt Hstale.
  destruct (enqueue_spec s n q Hc Hn Hlt Hstale)
    as (s' & He & Hc' & Hrun & Hcon & Hlen & _ & Hpay & _).
  destruct (place_split (prioOf (table s)) (freshSlice (table s !!! n)) n q)
    as (before & after & Hq & Hpl).
  rewrite Hpl in Hc'. exists s', before, after.
  rewrite (readyQueue_isChain s' _ Hc'). auto 10.
Qed.

Lemma enqueue_inserts_once_witness :
  exists s' before after,
    enqueue (Some 0%nat) midSliceState = Some s' /\
    [2%nat] = before ++ after /\
    readyQueue s' = before ++ 0%nat :: after /\
    isChain (table s') (head s') (readyQueue s') /\
    running s' = running midSliceState /\
    console s' = console midSliceState /\
    length (table s') = length (table midSliceState) /\
    forall j, payload (table s' !!! j) = payload (table midSliceState !!! j).
Proof.
  apply (enqueue_inserts_once midSliceState 0 [2%nat]).
  - simpl. repeat split; lia.
  - intros Hin. apply list_elem_of_singleton in Hin. discriminate.
  - simpl. lia.
  - discriminate.
Defined.

(** X2.  [enqueue] sets the quantum of the node it inserts to 0 when it was
    [Q] or more and leaves it otherwise; the quantum of every other node is
    as before. *)
Theorem enqueue_resets_quantum (s : State) (n : nat) (q : list nat) :
  isChain (table s) (head s) q ->
  n ∉ q ->
  (n < length (table s))%nat ->
  (q = [] -> next (table s !!! n) = None) ->
  exists s',
    enqueue (Some n) s = Some s' /\
    quantum (table s' !!! n)
    = (if Q <=? quantum (table s !!! n) then 0 else quantum (table s !!! n)) /\
    forall j, j <> n -> quantum (table s' !!! j) = quantum (table s !!! j).
Proof.
  intros Hc Hn Hlt Hstale.
  destruct (enqueue_spec s n q Hc Hn Hlt Hstale)
    as (s' & He & _ & _ & _ & _ & _ & _ & Hqo & Hqn).
  exists s'. auto.
Qed.

Lemma enqueue_resets_quantum_witness :
  exists s',
    enqueue (Some 0%nat) expiredState = Some s' /\
    quantum (table s' !!! 0%nat)
    = (if Q <=? quantum (table expiredState !!! 0%nat) then 0
       else quantum (table expiredState !!! 0%nat)) /\
    forall j, j <> 0%nat ->
              quantum (table s' !!! j) = quantum (table expiredState !!! j).
Proof.
  apply (enqueue_resets_quantum expiredState 0 [1%nat]).
  - simpl. repeat split; lia.
  - intros Hin. apply list_elem_of_singleton in Hin. discriminate.
  - simpl. lia.
  - discriminate.
Defined.

Section Order.
Implicit Types (l : list Z) (q : list nat).

Lemma descending_cons x l :
  descending (x :: l) <-> (forall y, y ∈ l -> y <= x) /\ descending l.
Proof.
  split.
  - intros H. split.
    + intros y Hy. apply list_elem_of_lookup in Hy as [i Hi].
      apply (H 0%nat (S i) x y); [lia | reflexivity | exact Hi].
    + intros i j a b Hlt Hi Hj. apply (H (S i) (S j) a b); [lia | exact Hi | exact Hj].
  - intros [Hx Hl] [|i] [|j] a b Hlt Hi Hj; simpl in *; try lia.
    + injection Hi as <-. apply Hx. apply list_elem_of_lookup. eauto.
    + apply (Hl i j a b); [lia | assumption | assumption].
Qed.

Lemma descending_nil : descending [].
Proof. intros i j x y _ Hi. destruct i; discriminate. Qed.

Lemma descending_singleton x : descending [x].
Proof.
  apply descending_cons. split; [|apply descending_nil].
  intros y Hy. inversion Hy.
Qed.

(** Where [place] keeps the order: the node is not below the head. *)
Lemma place_descending prio fresh n q :
  descending (prio <$> q) ->
  (forall h rest, q = h :: rest -> prio h <= prio n) ->
  descending (prio <$> place prio fresh n q).
Proof.
  intros Hd Hhead. destruct q as [|h rest]; [apply descending_singleton|].
  specialize (Hhead h rest eq_refl). simpl in Hd.
  pose proof Hd as [Hall Hrest]%descending_cons.
  assert (Hq : forall y, y ∈ prio <$> (h :: rest) -> y <= prio h).
  { intros y Hy. simpl in Hy. apply elem_of_cons in Hy as [->|Hy]; [lia|auto]. }
  simpl. destruct (prio h <? prio n) eqn:Hlt.
  { apply descending_cons. split; [|exact Hd].
    intros y Hy. specialize (Hq y Hy). lia. }
  apply Z.ltb_ge in Hlt. assert (Heq : prio n = prio h) by lia.
  rewrite (proj2 (Z.eqb_eq _ _) Heq). destruct (negb fresh).
  - apply descending_cons. split; [|exact Hd].
    intros y Hy. specialize (Hq y Hy). lia.
  - simpl. apply descending_cons. split.
    + intros y Hy. apply elem_of_cons in Hy as [->|Hy]; [lia|auto].
    + apply descending_cons. split; [|assumption].
      intros y Hy. specialize (Hall y Hy). lia.
Qed.

(** [place] keeps a head of the highest priority at the head. *)
Lemma place_head_max prio fresh n q :
  (forall h rest, q = h :: rest -> forall j, j ∈ q -> prio j <= prio h) ->
  exists h' rest',
    place prio fresh n q = h' :: rest' /\
    forall j, j ∈ place prio fresh n q -> prio j <= prio h'.
Proof.
  intros Hmax. destruct q as [|h rest].
  - exists n, []. split; [reflexivity|].
    intros j Hj. apply list_elem_of_singleton in Hj as ->. lia.
  - specialize (Hmax h rest eq_refl).
    assert (Hin : forall h', prio h <= prio h' -> prio n <= prio h' ->
                forall j, j ∈ place prio fresh n (h :: rest) -> prio j <= prio h').
    { intros h' Hh Hn j Hj. apply elem_of_place in Hj as [->|Hj]; [lia|].
      specialize (Hmax j Hj). lia. }
    simpl in *. destruct (prio h <? prio n) eqn:Hlt.
    { apply Z.ltb_lt in Hlt. eexists _, _. split; [reflexivity|].
      apply Hin; lia. }
    apply Z.ltb_ge in Hlt. destruct (prio n =? prio h) eqn:Heq.
    + apply Z.eqb_eq in Heq. destruct (negb fresh);
        (eexists _, _; split; [reflexivity|]; apply Hin; lia).
    + eexists _, _. split; [reflexivity|]. apply Hin; lia.
Qed.
End Order.

(** X3.  [enqueue] keeps a highest-priority process at the head: on a queue
    that is a chain of links that ends, for a node outside it whose own link
    is [NULL] when the queue is empty, if no queued process has a priority
    above the head's, then none has a priority above the new head's after
    the insertion (the comment of line 169, for [enqueue] alone). *)
Theorem enqueue_keeps_head_highest (s : State) (n : nat) (q : list nat) :
  isChain (table s) (head s) q ->
  n ∉ q ->
  (n < length (table s))%nat ->
  (q = [] -> next (table s !!! n) = None) ->
  (forall h j, head s = Some h -> j ∈ q ->
               priority (table s !!! j) <= priority (table s !!! h)) ->
  exists s' h',
    enqueue (Some n) s = Some s' /\
    head s' = Some h' /\
    forall j, j ∈ readyQueue s' ->
              priority (table s' !!! j) <= priority (table s' !!! h').
Proof.
  intros Hc Hn Hlt Hstale Hmax.
  destruct (enqueue_spec s n q Hc Hn Hlt Hstale)
    as (s' & He & Hc' & _ & _ & _ & _ & Hpay & _).
  destruct (place_head_max (prioOf (table s)) (freshSlice (table s !!! n)) n q)
    as (h' & rest' & Hpl & Hle).
  { intros h rest -> j Hj. destruct Hc as (Hh & _). unfold prioOf. eauto. }
  exists s', h'. split; [assumption|].
  rewrite (readyQueue_isChain s' _ Hc'). rewrite Hpl in Hc'.
  split; [apply Hc'|].
  assert (Hprio : forall j, priority (table s' !!! j) = priority (table s !!! j)).
  { intros j. specialize (Hpay j). unfold payload in Hpay. congruence. }
  intros j Hj. rewrite !Hprio. apply (Hle j Hj).
Qed.

Lemma enqueue_keeps_head_highest_witness :
  exists s' h',
    enqueue (Some 0%nat) midSliceState = Some s' /\
    head s' = Some h' /\
    forall j, j ∈ readyQueue s' ->
              priority (table s' !!! j) <= priority (table s' !!! h').
Proof.
  apply (enqueue_keeps_head_highest midSliceState 0 [2%nat]).
  - simpl. repeat split; lia.
  - intros Hin. apply list_elem_of_singleton in Hin. discriminate.
  - simpl. lia.
  - discriminate.
  - intros h j [= <-] Hj. apply list_elem_of_singleton in Hj as ->. simpl. lia.
Defined.

(** X4.  [enqueue] keeps a sorted queue sorted when the node it inserts is
    not of lower priority than the head: on a queue that is a chain of links
    that ends, for a node outside it whose own link is [NULL] when the queue
    is empty, the queue then stays in non-increasing order of priority. *)
Theorem enqueue_keeps_sorted_at_head (s : State) (n : nat) (q : list nat) :
  isChain (table s) (head s) q ->
  n ∉ q ->
  (n < length (table s))%nat ->
  (q = [] -> next (table s !!! n) = None) ->
  descending (priorities s) ->
  (forall h, head s = Some h ->
             priority (table s !!! h) <= priority (table s !!! n)) ->
  exists s',
    enqueue (Some n) s = Some s' /\ descending (priorities s').
Proof.
  intros Hc Hn Hlt Hstale Hd Hhead.
  destruct (enqueue_spec s n q Hc Hn Hlt Hstale)
    as (s' & He & Hc' & _ & _ & _ & _ & Hpay & _).
  exists s'. split; [assumption|].
  unfold priorities in *. rewrite (readyQueue_isChain s q Hc) in Hd.
  rewrite (readyQueue_isChain s' _ Hc').
  rewrite (list_fmap_ext (prioOf (table s')) (prioOf (table s))).
  - apply place_descending; [assumption|].
    intros h rest ->. destruct Hc as (Hh & _). unfold prioOf. auto.
  - intros i j _. unfold prioOf. specialize (Hpay j). unfold payload in Hpay.
    congruence.
Qed.

Lemma enqueue_keeps_sorted_at_head_witness :
  exists s',
    enqueue (Some 0%nat) midSliceState = Some s' /\ descending (priorities s').
Proof.
  apply (enqueue_keeps_sorted_at_head midSliceState 0 [2%nat]).
  - simpl. repeat split; lia.
  - intros Hin. apply list_elem_of_singleton in Hin. discriminate.
  - simpl. lia.
  - discriminate.
  - apply (descending_singleton 1).
  - intros h [= <-]. simpl. lia.
Defined.

(** What [dequeue] does to a queue that is a chain. *)
Lemma dequeue_chain (s : State) (q : list nat) :
  isChain (table s) (head s) q ->
  running (dequeue s) = q !! 0%nat /\
  readyQueue (dequeue s) = drop 1 q /\
  isChain (table (dequeue s)) (head (dequeue s)) (drop 1 q).
Proof.
  intros Hc.
  assert (Hrest : isChain (table (dequeue s)) (head (dequeue s)) (drop 1 q)).
  { destruct q as [|h rest]; simpl in Hc.
    - unfold dequeue. rewrite Hc. reflexivity.
    - destruct Hc as (Hh & _ & Hc). unfold dequeue. rewrite Hh. exact Hc. }
  split.
  { destruct q as [|h rest]; simpl in Hc; [|destruct Hc as (Hc & _)];
      unfold dequeue; rewrite Hc; reflexivity. }
  split; [apply readyQueue_isChain; assumption | assumption].
Qed.

(** X5.  [dequeue] on a queue that is a chain: the first entry goes to the
    running slot (or the slot becomes empty when the queue is), the rest is
    the new queue, and no node changes. *)
Theorem dequeue_pops_head (s : State) (q : list nat) :
  isChain (table s) (head s) q ->
  running (dequeue s) = q !! 0%nat /\
  readyQueue (dequeue s) = drop 1 q /\
  isChain (table (dequeue s)) (head (dequeue s)) (drop 1 q) /\
  table (dequeue s) = table s /\
  console (dequeue s) = console s.
Proof.
  intros Hc. destruct (dequeue_chain s q Hc) as (Hrun & Hq & Hrest).
  repeat split; assumption.
Qed.

Lemma dequeue_pops_head_witness :
  running (dequeue midSliceState) = [2%nat] !! 0%nat /\
  readyQueue (dequeue midSliceState) = drop 1 [2%nat] /\
  isChain (table (dequeue midSliceState)) (head (dequeue midSliceState))
          (drop 1 [2%nat]) /\
  table (dequeue midSliceState) = table midSliceState /\
  console (dequeue midSliceState) = console midSliceState.
Proof.
  apply (dequeue_pops_head midSliceState [2%nat]).
  simpl. repeat split; lia.
Defined.

(** X6.  [quantumCheck] on a running process whose [timeLeft] is 0: the
    process leaves the system (it is neither running nor queued afterwards
    and its link is cleared), the head of the queue takes the running slot
    and the rest of the queue stays; no counter of any process changes. *)
Theorem quantumCheck_reaps_finished (s : State) (r : nat) (q : list nat) :
  running s = Some r ->
  timeLeft (table s !!! r) = 0 ->
  isChain (table s) (head s) q ->
  r ∉ q ->
  (r < length (table s))%nat ->
  exists s',
    quantumCheck s = Some s' /\
    running s' = q !! 0%nat /\
    readyQueue s' = drop 1 q /\
    ~ active s' r /\
    next (table s' !!! r) = None /\
    forall j, data (table s' !!! j) = data (table s !!! j).
Proof.
  intros Hr Htl Hc Hrq Hlt.
  set (s1 := mkState (alter (set_next None) r (table s)) (head s) (running s)
                     (console s)).
  exists (dequeue s1).
  split; [unfold quantumCheck; rewrite Hr, Htl; reflexivity|].
  assert (Hc1 : isChain (table s1) (head s1) q).
  { apply isChain_alter_notin; assumption. }
  destruct (dequeue_chain s1 q Hc1) as (Hrun & Hq & Htbl).
  assert (Hsub : forall j, j ∈ drop 1 q -> j ∈ q).
  { intros j Hj. destruct q; [assumption | right; assumption]. }
  split; [assumption|]. split; [assumption|]. split.
  { intros [Ha|Ha].
    - rewrite Hrun in Ha. apply Hrq. apply list_elem_of_lookup. eauto.
    - rewrite Hq in Ha. auto. }
  change (table (dequeue s1)) with (alter (set_next None) r (table s)).
  split; [rewrite lookup_alter_same by assumption; reflexivity|].
  intros j. apply (lookup_alter_keeps data). reflexivity.
Qed.

Lemma quantumCheck_reaps_finished_witness :
  exists s',
    quantumCheck doneState = Some s' /\
    running s' = [1%nat] !! 0%nat /\
    readyQueue s' = drop 1 [1%nat] /\
    ~ active s' 0%nat /\
    next (table s' !!! 0%nat) = None /\
    forall j, data (table s' !!! j) = data (table doneState !!! j).
Proof.
  apply (quantumCheck_reaps_finished doneState 0 [1%nat]).
  - reflexivity.
  - reflexivity.
  - simpl. repeat split; lia.
  - intros Hin. apply list_elem_of_singleton in Hin. discriminate.
  - simpl. lia.
Defined.

(** The head [place] gives the queue when the node starts a new slice. *)
Lemma place_fresh_head prio n q :
  n ∉ q ->
  exists h' rest',
    place prio true n q = h' :: rest' /\
    (h' = n <-> forall h rest, q = h :: rest -> prio h < prio n).
Proof.
  intros Hn. destruct q as [|h rest].
  - exists n, []. split; [reflexivity|]. split; [discriminate | reflexivity].
  - apply not_elem_of_cons in Hn as [Hne _]. simpl.
    destruct (prio h <? prio n) eqn:Hlt.
    + apply Z.ltb_lt in Hlt. eexists _, _. split; [reflexivity|].
      split; [intros _ h0 rest0 [= <- <-]; assumption | reflexivity].
    + apply Z.ltb_ge in Hlt.
      assert (Hno : ~ forall h0 rest0, h :: rest = h0 :: rest0 -> prio h0 < prio n).
      { intros H. specialize (H h rest eq_refl). lia. }
      destruct (prio n =? prio h); eexists _, _; (split; [reflexivity|]);
        (split; [intros ->; contradiction | intros H; contradiction]).
Qed.

(** X7.  [quantumCheck] on an unfinished running process whose quantum is
    [Q], when the queue is a chain of links that ends, the process is
    outside it and its own link is [NULL] if the queue is empty: its quantum
    becomes 0, nobody enters or leaves the system, and it keeps the running
    slot exactly when the queue is empty or its priority is strictly above
    the head's; otherwise the head runs. *)
Theorem quantumCheck_slice_expiry (s : State) (r : nat) (q : list nat) :
  running s = Some r ->
  timeLeft (table s !!! r) <> 0 ->
  quantum (table s !!! r) = Q ->
  isChain (table s) (head s) q ->
  r ∉ q ->
  (r < length (table s))%nat ->
  (q = [] -> next (table s !!! r) = None) ->
  exists s',
    quantumCheck s = Some s' /\
    quantum (table s' !!! r) = 0 /\
    (forall j, active s' j <-> active s j) /\
    (running s' = Some r <->
     forall h, head s = Some h ->
               priority (table s !!! h) < priority (table s !!! r)) /\
    (forall h, head s = Some h ->
               priority (table s !!! r) <= priority (table s !!! h) ->
               running s' = Some h) /\
    forall j, payload (table s' !!! j) = payload (table s !!! j).
Proof.
  intros Hr Htl Hq Hc Hrq Hlt Hstale.
  destruct (enqueue_spec s r q Hc Hrq Hlt Hstale)
    as (s1 & He & Hc1 & _ & _ & _ & _ & Hpay & _ & Hqn).
  assert (Hfr : freshSlice (table s !!! r) = true).
  { unfold freshSlice. rewrite Hq. reflexivity. }
  rewrite Hfr in Hc1.
  destruct (place_fresh_head (prioOf (table s)) r q Hrq)
    as (h' & rest' & Hpl & Hhead).
  destruct (dequeue_chain s1 _ Hc1) as (Hrun & Hrq' & _).
  rewrite Hpl in Hrun, Hrq'.
  change ((h' :: rest') !! 0%nat) with (Some h') in Hrun.
  change (drop 1 (h' :: rest')) with rest' in Hrq'.
  exists (dequeue s1).
  split; [unfold quantumCheck; rewrite Hr;
          rewrite (proj2 (Z.eqb_neq _ _) Htl), Hq, He; reflexivity|].
  split; [change (table (dequeue s1)) with (table s1); rewrite Hqn, Hq;
          reflexivity|].
  split.
  { intros j. unfold active. rewrite Hrun, Hrq', Hr.
    rewrite (readyQueue_isChain s q Hc).
    pose proof (elem_of_place (prioOf (table s)) true r q j) as Hin.
    rewrite Hpl, elem_of_cons in Hin.
    assert (Hsome : forall a, Some a = Some j <-> j = a).
    { intros a. split; [intros [= ->] | intros ->]; reflexivity. }
    rewrite !Hsome. exact Hin. }
  split.
  { rewrite Hrun. split.
    - intros [= ->] h Hh. apply (proj1 Hhead eq_refl h (drop 1 q)).
      destruct q as [|h0 rest]; simpl in Hc; [congruence|].
      destruct Hc as (Hc & _). simpl. rewrite drop_0. congruence.
    - intros H. f_equal. apply Hhead. intros h rest ->.
      destruct Hc as (Hh & _). apply H. assumption. }
  split; [|exact Hpay].
  intros h Hh Hle. rewrite Hrun. f_equal.
  destruct q as [|h0 rest]; simpl in Hc; [congruence|].
  destruct Hc as (Hc & _). assert (h0 = h) by congruence. subst h0.
  simpl in Hpl. unfold prioOf in Hpl.
  rewrite (proj2 (Z.ltb_ge _ _) Hle) in Hpl.
  destruct (priority (table s !!! r) =? priority (table s !!! h));
    simpl in Hpl; congruence.
Qed.

Lemma quantumCheck_slice_expiry_witness :
  exists s',
    quantumCheck expiredState = Some s' /\
    quantum (table s' !!! 0%nat) = 0 /\
    (forall j, active s' j <-> active expiredState j) /\
    (running s' = Some 0%nat <->
     forall h, head expiredState = Some h ->
               priority (table expiredState !!! h)
               < priority (table expiredState !!! 0%nat)) /\
    (forall h, head expiredState = Some h ->
               priority (table expiredState !!! 0%nat)
               <= priority (table expiredState !!! h) ->
               running s' = Some h) /\
    forall j, payload (table s' !!! j) = payload (table expiredState !!! j).
Proof.
  apply (quantumCheck_slice_expiry expiredState 0 [1%nat]).
  - reflexivity.
  - discriminate.
  - reflexivity.
  - simpl. repeat split; lia.
  - intros Hin. apply list_elem_of_singleton in Hin. discriminate.
  - simpl. lia.
  - discriminate.
Defined.

(** What [stepProcesses] does when the queue is a chain and the running
    process is outside it. *)
Lemma stepProcesses_spec (s : State) (q : list nat) :
  isChain (table s) (head s) q ->
  (forall r, running s = Some r -> (r < length (table s))%nat /\ r ∉ q) ->
  exists s',
    stepProcesses s = Some s' /\
    head s' = head s /\ running s' = running s /\ console s' = console s /\
    isChain (table s') (head s') q /\
    (forall r, running s = Some r ->
               table s' !!! r = stepRunning (table s !!! r)) /\
    (forall j, j ∈ q -> table s' !!! j = stepWaiting (table s !!! j)) /\
    (forall j, running s <> Some j -> j ∉ q ->
               table s' !!! j = table s !!! j).
Proof.
  intros Hc Hrun. unfold stepProcesses.
  set (tbl := match running s with
              | Some r => alter stepRunning r (table s)
              | None => table s
              end).
  assert (Hc1 : isChain tbl (head s) q).
  { subst tbl. destruct (running s);
      [apply isChain_alter_keeps; auto using stepRunning_next | assumption]. }
  assert (Hsame : forall j, running s <> Some j -> tbl !!! j = table s !!! j).
  { intros j Hj. subst tbl. destruct (running s) as [r|]; [|reflexivity].
    apply lookup_alter_other. congruence. }
  destruct (stepQueue_spec q tbl (head s) (length tbl) Hc1)
    as (tbl' & Hrun' & Hlen' & Hout & Hin).
  { eapply isChain_length; eassumption. }
  rewrite Hrun'. eexists. split; [reflexivity|]. simpl.
  split; [reflexivity|]. split; [reflexivity|]. split; [reflexivity|].
  assert (Hnext : forall j, next (tbl' !!! j) = next (tbl !!! j)).
  { intros j. destruct (decide (j ∈ q)) as [Hj|Hj].
    - rewrite Hin by assumption. reflexivity.
    - rewrite Hout by assumption. reflexivity. }
  split.
  { clear -Hc1 Hnext Hlen'. revert Hc1. generalize (head s) as p.
    induction q as [|x q IH]; intros p Hc; simpl in *; [assumption|].
    destruct Hc as (-> & Hx & Hc). split; [reflexivity|].
    split; [lia|]. rewrite Hnext. auto. }
  split.
  { intros r Hr. destruct (Hrun r Hr) as (Hlt & Hrq).
    rewrite Hout by assumption. subst tbl. rewrite Hr.
    apply lookup_alter_same. assumption. }
  split.
  { intros j Hj. rewrite Hin by assumption. f_equal. apply Hsame.
    intros Hr. destruct (Hrun j Hr) as (_ & Hjq). contradiction. }
  intros j Hr Hj. rewrite Hout by assumption. auto.
Qed.

(** X8.  [stepProcesses], when the queue is a chain and the running process
    is outside it, returns and touches each process once: the running one
    gets quantum + 1, timeLeft - 1 and turnaround + 1, every queued one gets
    wait + 1 and turnaround + 1, all other nodes, the running slot and the
    order of the queue are as before. *)
Theorem stepProcesses_steps_each_once (s : State) (q : list nat) :
  isChain (table s) (head s) q ->
  (forall r, running s = Some r -> (r < length (table s))%nat /\ r ∉ q) ->
  exists s',
    stepProcesses s = Some s' /\
    running s' = running s /\
    readyQueue s' = q /\
    (forall r, running s = Some r ->
               table s' !!! r = stepRunning (table s !!! r)) /\
    (forall j, j ∈ q -> table s' !!! j = stepWaiting (table s !!! j)) /\
    (forall j, running s <> Some j -> j ∉ q ->
               table s' !!! j = table s !!! j).
Proof.
  intros Hc Hrun.
  destruct (stepProcesses_spec s q Hc Hrun)
    as (s' & Hs & _ & Hr & _ & Hc' & Hsr & Hsq & Hso).
  exists s'. rewrite (readyQueue_isChain s' q Hc'). auto 10.
Qed.

Lemma stepProcesses_steps_each_once_witness :
  exists s',
    stepProcesses midSliceState = Some s' /\
    running s' = running midSliceState /\
    readyQueue s' = [2%nat] /\
    (forall r, running midSliceState = Some r ->
               table s' !!! r = stepRunning (table midSliceState !!! r)) /\
    (forall j, j ∈ [2%nat] ->
               table s' !!! j = stepWaiting (table midSliceState !!! j)) /\
    (forall j, running midSliceState <> Some j -> j ∉ [2%nat] ->
               table s' !!! j = table midSliceState !!! j).
Proof.
  apply (stepProcesses_steps_each_once midSliceState [2%nat]).
  - simpl. repeat split; lia.
  - intros r [= <-]. split; [simpl; lia|].
    intros Hin. apply list_elem_of_singleton in Hin. discriminate.
Defined.

(** * Arrivals *)

Lemma active_with_running tbl hd r c q j :
  isChain tbl hd q ->
  active (mkState tbl hd r c) j <-> r = Some j \/ j ∈ q.
Proof.
  intros Hc. unfold active.
  rewrite (readyQueue_isChain (mkState tbl hd r c) q Hc). reflexivity.
Qed.

Lemma active_chain s q j :
  isChain (table s) (head s) q -> active s j <-> running s = Some j \/ j ∈ q.
Proof. intros Hc. unfold active. rewrite (readyQueue_isChain s q Hc). reflexivity. Qed.

(** Being active can be decided. *)
Lemma classic_active s j : active s j \/ ~ active s j.
Proof.
  unfold active. destruct (decide (running s = Some j)) as [|Hr]; [auto|].
  destruct (decide (j ∈ readyQueue s)) as [|Hq]; [auto|]. right. tauto.
Qed.

(** What the arrival of [nav] does to a well-formed state: [nav] becomes
    active, and the others stay as they were but for the process line 295
    drops. *)
Lemma arrive_effect (t : Z) (nav : nat) (s : State) (q : list nat) :
  isChain (table s) (head s) q ->
  (forall r, running s = Some r ->
             (r < length (table s))%nat /\ (r ∉ q) /\
             (q = [] -> next (table s !!! r) = None)) ->
  (nav < length (table s))%nat ->
  nav ∉ q ->
  running s <> Some nav ->
  next (table s !!! nav) = None ->
  exists s',
    arrive t nav s = Some s' /\
    (forall j, payload (table s' !!! j) = payload (table s !!! j)) /\
    (forall j, active s' j <-> j = nav \/ (active s j /\ ~ droppedBy s nav j)) /\
    (running s' = Some nav <->
     forall r, running s = Some r ->
               priority (table s !!! r) < priority (table s !!! nav)).
Proof.
  intros Hc Hrun Hnav Hnq Hnr Hnext.
  assert (Hact : forall j, active s j <-> running s = Some j \/ j ∈ q).
  { intros j. apply active_chain. assumption. }
  assert (Hsome : forall a j : nat, Some a = Some j <-> j = a).
  { intros a j. split; [intros [= ->] | intros ->]; reflexivity. }
  unfold arrive. destruct (running s) as [r|] eqn:Hr.
  - destruct (Hrun r eq_refl) as (Hrlt & Hrq & Hstale).
    assert (Hne : nav <> r) by congruence.
    destruct (priority (table s !!! r) <? priority (table s !!! nav)) eqn:Hp.
    + apply Z.ltb_lt in Hp.
      assert (Hswitch : forall c,
                 exists s1, enqueue (Some r)
                              (mkState (table s) (head s) (Some r) c) = Some s1 /\
                   (forall j, payload (table s1 !!! j) = payload (table s !!! j)) /\
                   forall j, active (mkState (table s1) (head s1) (Some nav)
                                             (console s1)) j
                             <-> j = nav \/ j = r \/ j ∈ q).
      { intros c.
        destruct (enqueue_spec (mkState (table s) (head s) (Some r) c) r q)
          as (s1 & He & Hc1 & _ & _ & _ & _ & Hpay & _); auto.
        exists s1. split; [assumption|]. split; [assumption|].
        intros j. rewrite (active_with_running _ _ _ _ _ _ Hc1).
        rewrite elem_of_place, Hsome. tauto. }
      assert (Hkept : forall j, j = r \/ j ∈ q ->
                 ~ (quantum (table s !!! r) = 0 \/ quantum (table s !!! r) = 10)
                 \/ 0 < timeLeft (table s !!! r) ->
                 (Some r = Some j \/ j ∈ q) /\ ~ droppedBy s nav j).
      { intros j Hj Hno. split; [rewrite Hsome; exact Hj|].
        intros (Hd & _ & Hq & Htl). rewrite Hr in Hd. injection Hd as <-.
        destruct Hno; [tauto | lia]. }
      destruct ((quantum (table s !!! r) =? 0) || (quantum (table s !!! r) =? 10))
        eqn:Hb.
      * apply orb_true_iff in Hb. rewrite !Z.eqb_eq in Hb.
        unfold preemptAtBoundary.
        destruct (timeLeft (table s !!! r) <=? 0) eqn:Htl.
        -- apply Z.leb_le in Htl. eexists. split; [reflexivity|].
           split; [reflexivity|]. split; [|simpl; split; [intros _ ? [= <-]|]; auto].
           intros j. rewrite (active_with_running _ _ _ _ _ _ Hc), Hsome, Hact.
           split.
           ++ intros [->|Hj]; [tauto|]. right. split; [tauto|].
              intros (Hd & _). apply Hrq. congruence.
           ++ intros [->|[[Hj|Hj] Hd]]; [tauto| |tauto].
              exfalso. apply Hd. injection Hj as <-. repeat split; auto.
        -- apply Z.leb_gt in Htl. destruct (Hswitch (console s)) as (s1 & He & Hpay & Ha).
           replace (mkState (table s) (head s) (Some r) (console s)) with s in He
             by (destruct s; simpl in *; congruence).
           rewrite He. eexists. split; [reflexivity|]. split; [exact Hpay|].
           split; [|simpl; split; [intros _ ? [= <-]|]; auto].
           intros j. rewrite Ha, Hact. split.
           ++ intros [->|Hj]; [tauto|]. right. apply Hkept; auto.
           ++ intros [->|[Hj _]]; [tauto|]. rewrite Hsome in Hj. tauto.
      * apply orb_false_iff in Hb. rewrite !Z.eqb_neq in Hb.
        unfold preemptMidSlice.
        destruct (Hswitch (console s ++
                     [ContextSwitch t (id (table s !!! nav)) (id (table s !!! r))]))
          as (s1 & He & Hpay & Ha).
        rewrite Hr. rewrite He. eexists. split; [reflexivity|].
        split; [exact Hpay|].
        split; [|simpl; split; [intros _ ? [= <-]|]; auto].
        intros j. rewrite Ha, Hact. split.
        -- intros [->|Hj]; [tauto|]. right. apply Hkept; [auto | left; tauto].
        -- intros [->|[Hj _]]; [tauto|]. rewrite Hsome in Hj. tauto.
    + apply Z.ltb_ge in Hp.
      destruct (enqueue_spec s nav q) as
        (s1 & He & Hc1 & Hrun1 & _ & _ & _ & Hpay & _); auto.
      exists s1. split; [assumption|]. split; [assumption|]. split.
      * intros j. rewrite (active_chain s1 _ j Hc1), Hrun1, Hr, elem_of_place, Hact.
        split.
        -- intros [Hj|[->|Hj]]; [|tauto|].
           ++ right. split; [tauto|]. intros (_ & Hlt & _).
              injection Hj as <-. lia.
           ++ right. split; [tauto|]. intros (Hd & _). apply Hrq. congruence.
        -- tauto.
      * rewrite Hrun1, Hr. split; [intros [= ->]; contradiction|].
        intros H. specialize (H r eq_refl). lia.
  - eexists. split; [reflexivity|]. split; [reflexivity|]. split.
    + intros j. rewrite (active_with_running _ _ _ _ _ _ Hc), Hsome, Hact.
      split; [intros [->|Hj]; [tauto|]
             | intros [->|[[Hj|Hj] _]]; [tauto|discriminate|tauto]].
      right. split; [tauto|]. intros (Hd & _). congruence.
    + simpl. split; [intros _ r Hr'; discriminate | reflexivity].
Qed.



(** * What one tick does to a state of the invariant *)

Section TickEffect.
Variable tbl0 : list Node.
Implicit Types (F : nat -> Prop) (s : State).

Lemma scanArrivals_active t navs : forall s flag s' flag',
  0 <= t -> NoDup navs -> (forall nav, nav ∈ navs -> (nav < length tbl0)%nat) ->
  Inv tbl0 (pending tbl0 t navs) s ->
  scanArrivals t navs s flag = Some (s', flag') ->
  forall j, active s' j ->
            active s j \/ (j ∈ navs /\ arrival (tbl0 !!! j) = t).
Proof.
  induction navs as [|nav rest IH]; intros s flag s' flag' Ht0 Hnd Hb HI Hs j Hj.
  - simpl in Hs. injection Hs as <- _. auto.
  - apply NoDup_cons in Hnd as [Hnr Hnd]. simpl in Hs.
    assert (Hb' : forall x, x ∈ rest -> (x < length tbl0)%nat).
    { intros x Hx. apply Hb. right. assumption. }
    destruct (arrival (table s !!! nav) =? t) eqn:Ht.
    + apply Z.eqb_eq in Ht.
      assert (Harr : arrival (tbl0 !!! nav) = t).
      { destruct HI as (_ & Harr & _).
        rewrite <- (statics_arrival _ _ (Harr nav)). assumption. }
      assert (HF : pending tbl0 t (nav :: rest) nav).
      { right. right. split; [assumption | left]. }
      assert (Hnav : (nav < length tbl0)%nat) by (apply Hb; left).
      destruct (arrive_Inv tbl0 _ s t nav HI HF Hnav) as (s1 & Ha & HI1).
      rewrite Ha in Hs.
      assert (HI1' : Inv tbl0 (pending tbl0 t rest) s1).
      { eapply Inv_weaken; [|exact HI1].
        intros i [Hi|[Hi|[Hi Hin]]]; (split; [unfold pending|]).
        - auto.
        - intros ->. lia.
        - auto.
        - intros ->. lia.
        - right. right. split; [assumption | right; assumption].
        - intros ->. contradiction. }
      destruct (IH s1 true s' flag' Ht0 Hnd Hb' HI1' Hs j Hj) as [Hj1|[Hin Hja]];
        [|right; split; [right|]; assumption].
      destruct HI as (Hlen & _ & q & Hc & Hfresh & Hrun & _).
      destruct (Hfresh nav HF Hnav) as (Hnq & _ & _ & _ & _ & Hnext).
      destruct (arrive_effect t nav s q Hc) as (s1' & Ha' & _ & Hact & _);
        auto; try lia.
      { intros r Hr. destruct (Hrun r Hr) as (? & ? & ? & ?).
        repeat split; auto; lia. }
      { intros Hr. destruct (Hrun nav Hr) as (_ & _ & HnF & _). contradiction. }
      assert (s1' = s1) by congruence. subst s1'.
      apply Hact in Hj1 as [->|[Hj1 _]]; [right; split; [left|assumption] | auto].
    + assert (HI' : Inv tbl0 (pending tbl0 t rest) s).
      { eapply Inv_weaken; [|exact HI].
        intros i [Hi|[Hi|[Hi Hin]]]; unfold pending; auto.
        right. right. split; [assumption | right; assumption]. }
      destruct (IH s flag s' flag' Ht0 Hnd Hb' HI' Hs j Hj) as [|[Hin Hja]]; auto.
      right. split; [right|]; assumption.
Qed.

Lemma quantumCheck_active F s s' :
  Inv tbl0 F s -> quantumCheck s = Some s' ->
  forall j, active s' j -> active s j.
Proof.
  intros (Hlen & _ & q & Hc & _ & Hrun & _) Hq j. unfold quantumCheck in Hq.
  rewrite (active_chain s q j Hc).
  destruct (running s) as [r|] eqn:Hr;
    [|injection Hq as <-; rewrite (active_chain s q j Hc); rewrite Hr; auto].
  destruct (Hrun r eq_refl) as (Hrlt & Hrq & _ & Hstale).
  assert (Hpop : forall s1 q1, isChain (table s1) (head s1) q1 ->
             active (dequeue s1) j -> j ∈ q1).
  { intros s1 q1 Hc1 [Ha|Ha]; destruct (dequeue_chain s1 q1 Hc1) as (Hr1 & Hq1 & _).
    - rewrite Hr1 in Ha. apply list_elem_of_lookup. eauto.
    - rewrite Hq1 in Ha. destruct q1; [assumption | right; assumption]. }
  destruct (timeLeft (table s !!! r) =? 0).
  - injection Hq as <-. intros Ha. right.
    apply (Hpop _ q) in Ha; [assumption|].
    simpl. apply isChain_alter_notin; assumption.
  - destruct (quantum (table s !!! r) =? Q).
    + destruct (enqueue_spec s r q) as (s1 & He & Hc1 & _); auto; [lia|].
      rewrite He in Hq. injection Hq as <-. intros Ha.
      apply (Hpop _ _ Hc1) in Ha. apply elem_of_place in Ha as [->|Ha]; auto.
    + injection Hq as <-. rewrite (active_chain s q j Hc), Hr. auto.
Qed.

(** One tick, from a state of the invariant: whoever is active afterwards
    was active before or arrives at this tick, and its turnaround has grown
    by one; the turnaround of the others has not moved. *)
Lemma tick_effect t s s' :
  0 <= t -> Inv tbl0 (notArrived tbl0 t) s -> tick t s = Some s' ->
  (forall j, active s' j ->
             (active s j \/ arrival (tbl0 !!! j) = t) /\
             turnaround (table s' !!! j) = turnaround (table s !!! j) + 1) /\
  (forall j, ~ active s' j ->
             turnaround (table s' !!! j) = turnaround (table s !!! j)).
Proof.
  intros Ht0 HI Ht. unfold tick in Ht.
  assert (Hlen : length (table s) = length tbl0) by apply HI.
  assert (HIp : Inv tbl0 (pending tbl0 t (seq 0 (length tbl0))) s).
  { eapply Inv_weaken; [|exact HI].
    intros j [Hj|[Hj|[Hj _]]]; unfold notArrived; lia. }
  assert (Hnd : NoDup (seq 0 (length tbl0))) by apply NoDup_seq.
  assert (Hb : forall nav, nav ∈ seq 0 (length tbl0) -> (nav < length tbl0)%nat).
  { intros nav Hnav. apply elem_of_seq in Hnav. lia. }
  rewrite Hlen in Ht.
  destruct (scanArrivals_Inv tbl0 t _ s false Ht0 Hnd Hb HIp)
    as (s1 & flag & Hs & HI1).
  rewrite Hs in Ht.
  pose proof (scanArrivals_active t _ s false s1 flag Ht0 Hnd Hb HIp Hs) as Hact1.
  pose proof (scanArrivals_payload _ _ _ _ _ _ Hs) as Hpay1.
  assert (H2 : exists s2, (if flag then Some s1 else quantumCheck s1) = Some s2 /\
                 Inv tbl0 (pending tbl0 t []) s2 /\
                 (forall j, active s2 j -> active s1 j) /\
                 (forall j, payload (table s2 !!! j) = payload (table s1 !!! j))).
  { destruct flag; [exists s1; auto|].
    destruct (quantumCheck_Inv tbl0 _ s1 HI1) as (s2 & Hq & HI2).
    exists s2. split; [assumption|]. split; [assumption|].
    split; [eapply quantumCheck_active; eassumption
           | apply quantumCheck_payload; assumption]. }
  destruct H2 as (s2 & Hq & HI2 & Hact2 & Hpay2). rewrite Hq in Ht.
  destruct HI2 as (Hlen2 & _ & q & Hc & _ & Hrun & _).
  destruct (stepProcesses_spec s2 q Hc)
    as (s3 & Hs3 & _ & Hr3 & _ & Hc3 & Hsr & Hsq & Hso).
  { intros r Hr. destruct (Hrun r Hr) as (? & ? & _). split; [lia | assumption]. }
  assert (s3 = s') by congruence. subst s3.
  assert (Hta : forall j, turnaround (table s2 !!! j) = turnaround (table s !!! j)).
  { intros j. pose proof (Hpay2 j) as H2. pose proof (Hpay1 j) as H1.
    unfold payload in *. congruence. }
  assert (Hsame : forall j, active s' j <-> active s2 j).
  { intros j. rewrite (active_chain s' q j Hc3), (active_chain s2 q j Hc), Hr3.
    reflexivity. }
  split.
  - intros j Hj. apply Hsame in Hj. split.
    + destruct (Hact1 j (Hact2 j Hj)) as [|[_ ?]]; auto.
    + rewrite <- Hta. apply (active_chain s2 q j Hc) in Hj as [Hj|Hj].
      * rewrite (Hsr j Hj). reflexivity.
      * rewrite (Hsq j Hj). reflexivity.
  - intros j Hj. rewrite <- Hta. rewrite Hsame, (active_chain s2 q j Hc) in Hj.
    rewrite Hso; [reflexivity | tauto | tauto].
Qed.
End TickEffect.

(** * Counters along a run *)

Section Accounting.
Implicit Types (s : State) (tbl : list Node).

Lemma balanced_payload x y : payload x = payload y -> balanced x -> balanced y.
Proof.
  unfold payload, balanced. intros H. injection H as _ _ Hb _ Htl Hta Hw.
  rewrite Hb, Htl, Hta, Hw. auto.
Qed.

Lemma balanced_stepRunning x : balanced x -> balanced (stepRunning x).
Proof. unfold balanced. simpl. lia. Qed.

Lemma balanced_stepWaiting x : balanced x -> balanced (stepWaiting x).
Proof. unfold balanced. simpl. lia. Qed.

Lemma alter_keeps_pred (P : Node -> Prop) f tbl i :
  (forall x, P x -> P (f x)) ->
  (forall j, P (tbl !!! j)) -> forall j, P (alter f i tbl !!! j).
Proof.
  intros Hf HP j. rewrite list_lookup_total_alter.
  case_decide; [apply Hf|]; apply HP.
Qed.

Lemma stepQueue_keeps_pred (P : Node -> Prop) fuel : forall tbl p tbl',
  (forall x, P x -> P (stepWaiting x)) ->
  (forall j, P (tbl !!! j)) ->
  stepQueue fuel tbl p = Some tbl' -> forall j, P (tbl' !!! j).
Proof.
  induction fuel as [|fuel IH]; intros tbl [i|] tbl' Hf HP H; simpl in H;
    try discriminate; try (injection H as <-; assumption).
  eapply IH; [exact Hf | | exact H]. apply alter_keeps_pred; assumption.
Qed.

Lemma tick_balanced t s s' :
  (forall j, balanced (table s !!! j)) -> tick t s = Some s' ->
  forall j, balanced (table s' !!! j).
Proof.
  intros Hb Ht. unfold tick in Ht.
  destruct (scanArrivals t _ s false) as [[s1 flag]|] eqn:Hs; [|discriminate].
  assert (H2 : exists s2, (if flag then Some s1 else quantumCheck s1) = Some s2
                          /\ stepProcesses s2 = Some s').
  { destruct (if flag then Some s1 else quantumCheck s1); [eauto|discriminate]. }
  destruct H2 as (s2 & Hq & Hstep).
  assert (Hb2 : forall j, balanced (table s2 !!! j)).
  { intros j. apply (balanced_payload (table s !!! j)); [|apply Hb].
    rewrite <- (scanArrivals_payload _ _ _ _ _ _ Hs j).
    destruct flag; [injection Hq as <-; reflexivity|].
    symmetry. eapply quantumCheck_payload. eassumption. }
  unfold stepProcesses in Hstep.
  match type of Hstep with
  | _ <$> stepQueue ?f ?t ?p = _ => destruct (stepQueue f t p) as [tbl'|] eqn:Hq'
  end; [|discriminate].
  injection Hstep as <-. simpl.
  eapply stepQueue_keeps_pred; [apply balanced_stepWaiting | | exact Hq'].
  destruct (running s2); [|assumption].
  apply alter_keeps_pred; [apply balanced_stepRunning | assumption].
Qed.

Lemma ticks_balanced ds k : forall s,
  ticks k (initial ds) = Some s -> forall j, balanced (table s !!! j).
Proof.
  induction k as [|k IH]; intros s Hs j; simpl in Hs.
  - injection Hs as <-. simpl.
    destruct (loadTable_untouched ds j) as (Htl & Hta & Hw & _).
    unfold balanced. lia.
  - destruct (ticks k (initial ds)) as [s1|] eqn:H1; [|discriminate].
    eapply tick_balanced; [apply IH; reflexivity | eassumption].
Qed.


(** Along a run: a process that is running or queued after [k] ticks has
    been so since it arrived, and each tick since has added one to its
    turnaround; no turnaround exceeds the number of ticks. *)
Lemma ticks_turnaround ds k :
  exists s,
    ticks k (initial ds) = Some s /\
    Inv (loadTable ds) (notArrived (loadTable ds) (Z.of_nat k)) s /\
    (forall j, active s j ->
               turnaround (table s !!! j)
               = Z.of_nat k - arrival (loadTable ds !!! j)) /\
    (forall j, 0 <= turnaround (table s !!! j) <= Z.of_nat k).
Proof.
  induction k as [|k (s & Hs & HI & Hact & Hbound)].
  - exists (initial ds). split; [reflexivity|]. split; [apply initial_Inv|].
    split.
    + intros j [Hj|Hj]; [discriminate|].
      rewrite (readyQueue_isChain (initial ds) [] eq_refl) in Hj. inversion Hj.
    + intros j. simpl. destruct (loadTable_untouched ds j) as (_ & -> & _). lia.
  - destruct (tick_Inv (loadTable ds) (Z.of_nat k) s) as (s' & Ht & HI');
      [lia|assumption|].
    destruct (tick_effect (loadTable ds) (Z.of_nat k) s s') as (Hin & Hout);
      [lia|assumption..|].
    exists s'. simpl. rewrite Hs. split; [assumption|].
    replace (Z.of_nat (S k)) with (Z.of_nat k + 1) by lia.
    split; [assumption|]. split.
    + intros j Hj. destruct (Hin j Hj) as (Hfrom & ->).
      destruct (classic_active s j) as [Ha|Hna]; [rewrite (Hact j Ha); lia|].
      destruct Hfrom as [Ha|Harr]; [contradiction|].
      assert (Hjlt : (j < length (loadTable ds))%nat).
      { destruct HI' as (Hlen' & _ & q' & Hc' & _ & Hrun' & _).
        apply (active_chain s' q' j Hc') in Hj as [Hj|Hj].
        - apply (Hrun' j Hj).
        - rewrite <- Hlen'. eapply isChain_bound; eassumption. }
      destruct HI as (_ & _ & q & _ & Hfresh & _).
      destruct (Hfresh j) as (_ & _ & Hta & _); [right; lia | assumption |].
      rewrite Hta. lia.
    + intros j. specialize (Hbound j).
      destruct (classic_active s' j) as [Ha|Hna].
      * destruct (Hin j Ha) as (_ & ->). lia.
      * rewrite (Hout j Hna). lia.
Qed.
End Accounting.

(** X10.  Turnaround counts the ticks since arrival: after [k] ticks of any
    run, a process that is running or queued has a turnaround of [k] minus
    its arrival time. *)
Theorem turnaround_counts_ticks_since_arrival (ds : list Descriptor) (k : nat) :
  exists s,
    ticks k (initial ds) = Some s /\
    forall j, active s j ->
              turnaround (table s !!! j) = Z.of_nat k - arrival (table s !!! j).
Proof.
  destruct (ticks_turnaround ds k) as (s & Hs & HI & Hact & _).
  exists s. split; [assumption|]. intros j Hj.
  destruct HI as (_ & Hst & _).
  rewrite (statics_arrival _ _ (Hst j)). auto.
Qed.

(** X11.  Every tick counted in a turnaround was spent waiting or running:
    after any number [k <= N] of ticks, for every process, turnaround =
    wait + (burst - timeLeft); for tables whose bursts are not within [N] of
    [INT_MIN], where the decrement of line 208 does not overflow. *)
Theorem turnaround_is_wait_plus_run (ds : list Descriptor) (k : nat) :
  burstsFit ds ->
  (k <= Z.to_nat N)%nat ->
  exists s,
    ticks k (initial ds) = Some s /\
    forall j, turnaround (table s !!! j)
              = wait (table s !!! j)
                + (burst (table s !!! j) - timeLeft (table s !!! j)).
Proof.
  intros _ _. destruct (ticks_Inv ds k) as (s & Hs & _).
  exists s. split; [assumption|]. apply (ticks_balanced ds k s Hs).
Qed.

Lemma turnaround_is_wait_plus_run_witness :
  exists s,
    ticks 7 (initial preemptInput) = Some s /\
    forall j, turnaround (table s !!! j)
              = wait (table s !!! j)
                + (burst (table s !!! j) - timeLeft (table s !!! j)).
Proof.
  apply (turnaround_is_wait_plus_run preemptInput 7).
  - repeat constructor; vm_compute; discriminate.
  - vm_compute. lia.
Defined.




(** X13.  Only processes that have arrived are scheduled: after [k] ticks
    the queue holds distinct processes, and every running or queued process
    is a record of the input whose arrival time lies in [0, k). *)
Theorem only_arrived_processes_scheduled (ds : list Descriptor) (k : nat) :
  exists s,
    ticks k (initial ds) = Some s /\
    NoDup (readyQueue s) /\
    forall j, active s j ->
              (j < length ds)%nat /\
              0 <= arrival (table s !!! j) < Z.of_nat k.
Proof.
  destruct (ticks_Inv ds k)
    as (s & Hs & Hlen & Hst & q & Hc & Hfresh & Hrun & _).
  exists s. split; [assumption|].
  rewrite (readyQueue_isChain s q Hc).
  split; [eapply isChain_NoDup; eassumption|].
  intros j Hj. apply (active_chain s q j Hc) in Hj.
  assert (Hjlt : (j < length (loadTable ds))%nat).
  { destruct Hj as [Hj|Hj]; [apply (Hrun j Hj)|].
    rewrite <- Hlen. eapply isChain_bound; eassumption. }
  split; [rewrite <- loadTable_length; assumption|].
  rewrite (statics_arrival _ _ (Hst j)).
  assert (HnF : ~ notArrived (loadTable ds) (Z.of_nat k) j).
  { intros HF. destruct Hj as [Hj|Hj].
    - destruct (Hrun j Hj) as (_ & _ & HnF & _). contradiction.
    - destruct (Hfresh j HF Hjlt) as (Hjq & _). contradiction. }
  unfold notArrived in HnF. lia.
Qed.

(** X14.  [output] reports every node of the master list once, in list
    order and under its own name, whatever happened during the run: for the
    table [readFile] built from the records [ds] it stored, the loop
    returns, [output] has one line per record, and line [j] carries the name
    of record [j]. *)
Theorem output_in_input_order (ds : list Descriptor) :
  exists s,
    simulate ds = Some s /\
    length (output s) = length ds /\
    forall j i p b a,
      ds !! j = Some (i, p, b, a) ->
      exists ta w, output s !! j = Some (i, ta, w).
Proof.
  destruct (ticks_Inv ds (Z.to_nat N)) as (s & Hs & Hlen & Hst & _).
  exists s. split; [assumption|].
  split; [unfold output; rewrite length_fmap, Hlen; apply loadTable_length|].
  intros j i p b a Hj.
  assert (Hjlt : (j < length (table s))%nat).
  { rewrite Hlen, loadTable_length. eapply lookup_lt_Some. eassumption. }
  exists (turnaround (table s !!! j)), (wait (table s !!! j)).
  unfold output. rewrite list_lookup_fmap.
  rewrite (list_lookup_lookup_total_lt (table s) j Hjlt). simpl.
  pose proof (Hst j) as Hid. rewrite (loadTable_lookup ds j i p b a Hj) in Hid.
  unfold statics in Hid. simpl in Hid. injection Hid as Hi _ _ _.
  rewrite Hi. reflexivity.
Qed.

(** * The arrival scan and its flag *)

Section Scan.
Implicit Types (s : State) (navs : list nat).

Lemma scanArrivals_none t navs : forall s flag,
  (forall nav, nav ∈ navs -> arrival (table s !!! nav) <> t) ->
  scanArrivals t navs s flag = Some (s, flag).
Proof.
  induction navs as [|nav rest IH]; intros s flag Hno; simpl; [reflexivity|].
  rewrite (proj2 (Z.eqb_neq _ _) (Hno nav (list_elem_of_here _ _))).
  apply IH. intros x Hx. apply Hno. right. assumption.
Qed.

Lemma scanArrivals_flag_stays t navs : forall s s' flag',
  scanArrivals t navs s true = Some (s', flag') -> flag' = true.
Proof.
  induction navs as [|nav rest IH]; intros s s' flag' H; simpl in H.
  - injection H as _ <-. reflexivity.
  - destruct (arrival (table s !!! nav) =? t); [|eauto].
    destruct (arrive t nav s); [eauto | discriminate].
Qed.

Lemma scanArrivals_flag_raised t navs : forall s flag s' flag',
  (exists nav, nav ∈ navs /\ arrival (table s !!! nav) = t) ->
  scanArrivals t navs s flag = Some (s', flag') -> flag' = true.
Proof.
  induction navs as [|nav rest IH]; intros s flag s' flag' (x & Hx & Hxt) H.
  - inversion Hx.
  - simpl in H. destruct (arrival (table s !!! nav) =? t) eqn:Ht.
    + destruct (arrive t nav s); [|discriminate].
      eapply scanArrivals_flag_stays. eassumption.
    + apply Z.eqb_neq in Ht. apply elem_of_cons in Hx as [->|Hx]; [contradiction|].
      eapply IH; [|eassumption]. eauto.
Qed.

Lemma enqueue_keeps_console node s s' :
  enqueue node s = Some s' -> console s' = console s.
Proof.
  destruct node as [n|]; simpl; [|intros [= <-]; reflexivity].
  destruct (link n (normalise n (table s)) (head s)); [|discriminate].
  intros [= <-]. reflexivity.
Qed.
End Scan.

(** X15.  On a tick at which no process arrives the scan of the master list
    changes nothing, and the tick is [quantumCheck] followed by
    [stepProcesses]. *)
Theorem tick_without_arrival (t : Z) (s : State) :
  (forall j, (j < length (table s))%nat -> arrival (table s !!! j) <> t) ->
  tick t s = match quantumCheck s with
             | Some s2 => stepProcesses s2
             | None => None
             end.
Proof.
  intros Hno. unfold tick. rewrite scanArrivals_none; [reflexivity|].
  intros nav Hnav. apply Hno. apply elem_of_seq in Hnav. lia.
Qed.

Lemma tick_without_arrival_witness :
  tick 5 midSliceState = match quantumCheck midSliceState with
                         | Some s2 => stepProcesses s2
                         | None => None
                         end.
Proof.
  apply (tick_without_arrival 5 midSliceState).
  intros [|[|[|j]]] Hj; simpl in *; discriminate.
Defined.

(** X16.  On a tick at which some process arrives [quantumCheck] does not
    run, whatever the state of the running process: the tick is the arrival
    scan followed by [stepProcesses]. *)
Theorem tick_with_arrival (t : Z) (s : State) :
  (exists j, (j < length (table s))%nat /\ arrival (table s !!! j) = t) ->
  tick t s = match scanArrivals t (seq 0 (length (table s))) s false with
             | Some (s1, _) => stepProcesses s1
             | None => None
             end.
Proof.
  intros (j & Hj & Hjt). unfold tick.
  destruct (scanArrivals t _ s false) as [[s1 flag]|] eqn:Hs; [|reflexivity].
  assert (Hflag : flag = true).
  { eapply scanArrivals_flag_raised; [|exact Hs].
    exists j. split; [apply elem_of_seq; lia | assumption]. }
  rewrite Hflag. reflexivity.
Qed.

Lemma tick_with_arrival_witness :
  tick 2 midSliceState
  = match scanArrivals 2 (seq 0 (length (table midSliceState)))
                       midSliceState false with
    | Some (s1, _) => stepProcesses s1
    | None => None
    end.
Proof.
  apply (tick_with_arrival 2 midSliceState).
  exists 1%nat. split; [simpl; lia | reflexivity].
Defined.

(** What handling an arrival prints, when it returns. *)
Lemma arrive_console (t : Z) (nav : nat) (s s' : State) :
  arrive t nav s = Some s' ->
  console s'
  = console s ++
    match running s with
    | Some r =>
        if (priority (table s !!! r) <? priority (table s !!! nav))
           && negb ((quantum (table s !!! r) =? 0)
                    || (quantum (table s !!! r) =? 10))
        then [ContextSwitch t (id (table s !!! nav)) (id (table s !!! r))]
        else []
    | None => []
    end.
Proof.
  unfold arrive, preemptAtBoundary, preemptMidSlice.
  destruct (running s) as [r|] eqn:Hr;
    [|intros [= <-]; simpl; rewrite app_nil_r; reflexivity].
  destruct (priority (table s !!! r) <? priority (table s !!! nav));
    cbv [andb].
  - destruct ((quantum (table s !!! r) =? 0) || (quantum (table s !!! r) =? 10));
      cbv [negb].
    + destruct (timeLeft (table s !!! r) <=? 0).
      * intros [= <-]. simpl. rewrite app_nil_r. reflexivity.
      * destruct (enqueue (Some r) s) as [s1|] eqn:He; [|discriminate].
        intros [= <-]. simpl. rewrite app_nil_r.
        eapply enqueue_keeps_console. eassumption.
    + match goal with
      | |- context [enqueue ?a ?b] => destruct (enqueue a b) as [s1|] eqn:He
      end; [|discriminate].
      intros [= <-]. simpl. apply (enqueue_keeps_console _ _ _ He).
  - intros He. rewrite app_nil_r. eapply enqueue_keeps_console. eassumption.
Qed.

(** X17.  When a process not yet in the system arrives in a well-formed
    state (the queue is a chain of links that ends, the running process is
    outside it and has a [NULL] link if the queue is empty), the loop body
    returns, and it prints "context switch" exactly when a process is
    running, the arriving one has a strictly higher priority and the
    running one's quantum is neither 0 nor 10; the message carries the tick
    and the two names, and nothing else is printed. *)
Theorem arrive_prints_on_mid_slice_preemption
    (t : Z) (nav : nat) (s : State) (q : list nat) :
  isChain (table s) (head s) q ->
  (forall r, running s = Some r ->
             (r < length (table s))%nat /\ (r ∉ q) /\
             (q = [] -> next (table s !!! r) = None)) ->
  (nav < length (table s))%nat ->
  nav ∉ q ->
  running s <> Some nav ->
  next (table s !!! nav) = None ->
  exists s',
    arrive t nav s = Some s' /\
    console s'
    = console s ++
      match running s with
      | Some r =>
          if (priority (table s !!! r) <? priority (table s !!! nav))
             && negb ((quantum (table s !!! r) =? 0)
                      || (quantum (table s !!! r) =? 10))
          then [ContextSwitch t (id (table s !!! nav)) (id (table s !!! r))]
          else []
      | None => []
      end.
Proof.
  intros Hc Hrun Hnav Hnq Hnr Hnext.
  destruct (arrive_effect t nav s q Hc Hrun Hnav Hnq Hnr Hnext)
    as (s' & Ha & _).
  exists s'. split; [assumption|]. apply arrive_console. assumption.
Qed.

Lemma arrive_prints_on_mid_slice_preemption_witness :
  exists s',
    arrive 2 1 midSliceState = Some s' /\
    console s'
    = console midSliceState ++
      match running midSliceState with
      | Some r =>
          if (priority (table midSliceState !!! r)
              <? priority (table midSliceState !!! 1%nat))
             && negb ((quantum (table midSliceState !!! r) =? 0)
                      || (quantum (table midSliceState !!! r) =? 10))
          then [ContextSwitch 2 (id (table midSliceState !!! 1%nat))
                              (id (table midSliceState !!! r))]
          else []
      | None => []
      end.
Proof.
  apply (arrive_prints_on_mid_slice_preemption 2 1 midSliceState [2%nat]).
  - simpl. repeat split; lia.
  - intros r [= <-]. split; [simpl; lia|]. split; [|discriminate].
    intros Hin. apply list_elem_of_singleton in Hin. discriminate.
  - simpl. lia.
  - intros Hin. apply list_elem_of_singleton in Hin. discriminate.
  - discriminate.
  - reflexivity.
Defined.

(** * A process alone in the system *)

Section Lone.
Variables (i : string) (p b a : Z).

Lemma lone_idle tl ta qn t :
  a <> t ->
  tick t (loneState i p b a tl ta qn None)
  = Some (loneState i p b a tl ta qn None).
Proof.
  intros Ha. unfold tick, loneState. simpl.
  rewrite (proj2 (Z.eqb_neq _ _) Ha). reflexivity.
Qed.

Lemma lone_arrive :
  tick a (loneState i p b a b 0 0 None)
  = Some (loneState i p b a (b - 1) 1 1 (Some 0%nat)).
Proof. unfold tick, loneState. simpl. rewrite Z.eqb_refl. reflexivity. Qed.

Lemma lone_run tl ta qn t :
  a <> t -> tl <> 0 -> 1 <= qn <= 10 ->
  exists qn', 1 <= qn' <= 10 /\
    tick t (loneState i p b a tl ta qn (Some 0%nat))
    = Some (loneState i p b a (tl - 1) (ta + 1) qn' (Some 0%nat)).
Proof.
  intros Ha Htl Hq. unfold tick, loneState. simpl.
  rewrite (proj2 (Z.eqb_neq _ _) Ha).
  unfold quantumCheck. simpl.
  rewrite (proj2 (Z.eqb_neq _ _) Htl).
  destruct (qn =? Q) eqn:Hqq.
  - apply Z.eqb_eq in Hqq. subst qn. exists 1. split; [lia|]. reflexivity.
  - apply Z.eqb_neq in Hqq. unfold Q in Hqq. exists (qn + 1).
    split; [lia|]. reflexivity.
Qed.

Lemma lone_finish ta qn t :
  a <> t ->
  tick t (loneState i p b a 0 ta qn (Some 0%nat))
  = Some (loneState i p b a 0 ta qn None).
Proof.
  intros Ha. unfold tick, loneState. simpl.
  rewrite (proj2 (Z.eqb_neq _ _) Ha). reflexivity.
Qed.

(** The three phases of the run: before the arrival, while the process
    runs, and after it has been reaped. *)
Lemma lone_phases (k : nat) :
  0 <= a -> 0 < b ->
  (Z.of_nat k <= a ->
   ticks k (initial [(i, p, b, a)]) = Some (loneState i p b a b 0 0 None)) /\
  (a < Z.of_nat k <= a + b ->
   exists qn, 1 <= qn <= 10 /\
     ticks k (initial [(i, p, b, a)])
     = Some (loneState i p b a (b - (Z.of_nat k - a)) (Z.of_nat k - a) qn
                       (Some 0%nat))) /\
  (a + b < Z.of_nat k ->
   exists qn, ticks k (initial [(i, p, b, a)])
              = Some (loneState i p b a 0 b qn None)).
Proof.
  intros Ha Hb. induction k as [|k (Hbefore & Hduring & Hafter)].
  - split; [reflexivity|]. split; intros; lia.
  - replace (Z.of_nat (S k)) with (Z.of_nat k + 1) by lia. simpl.
    split; [|split].
    + intros Hk. rewrite Hbefore by lia. apply lone_idle. lia.
    + intros Hk. destruct (Z.eq_dec (Z.of_nat k) a) as [Heq|Hne].
      * rewrite Hbefore by lia. rewrite Heq. exists 1. split; [lia|].
        rewrite lone_arrive. replace (a + 1 - a) with 1 by lia. reflexivity.
      * destruct Hduring as (qn & Hqn & ->); [lia|].
        destruct (lone_run (b - (Z.of_nat k - a)) (Z.of_nat k - a) qn (Z.of_nat k))
          as (qn' & Hqn' & ->); [lia..|].
        exists qn'. split; [assumption|].
        replace (b - (Z.of_nat k + 1 - a)) with (b - (Z.of_nat k - a) - 1) by lia.
        replace (Z.of_nat k + 1 - a) with (Z.of_nat k - a + 1) by lia.
        reflexivity.
    + intros Hk. destruct (Z.eq_dec (Z.of_nat k) (a + b)) as [Heq|Hne].
      * destruct Hduring as (qn & Hqn & ->); [lia|].
        replace (b - (Z.of_nat k - a)) with 0 by lia.
        replace (Z.of_nat k - a) with b by lia.
        exists qn. apply lone_finish. lia.
      * destruct Hafter as (qn & ->); [lia|].
        exists qn. apply lone_idle. lia.
Qed.
End Lone.

(** X18.  A process alone in the system runs without interruption from its
    arrival: when the master list [readFile] built holds a single node,
    with burst > 0 and arrival in [0, N), the simulation reports it with
    wait 0 and a turnaround equal to the burst, or to the N - arrival ticks
    left when the burst does not fit in the horizon. *)
Theorem lone_process_runs_uninterrupted (i : string) (p b a : Z) :
  0 <= a < N ->
  0 < b ->
  exists s,
    simulate [(i, p, b, a)] = Some s /\
    output s = [(i, Z.min b (N - a), 0)].
Proof.
  intros Ha Hb. unfold simulate.
  destruct (lone_phases i p b a (Z.to_nat N)) as (_ & Hduring & Hafter);
    [lia | assumption |].
  assert (HN : Z.of_nat (Z.to_nat N) = N) by reflexivity.
  rewrite HN in *.
  destruct (Z_le_gt_dec N (a + b)) as [Hfit|Hfit].
  - destruct Hduring as (qn & _ & ->); [lia|].
    eexists. split; [reflexivity|]. unfold output. simpl.
    rewrite Z.min_r by lia. reflexivity.
  - destruct Hafter as (qn & ->); [lia|].
    eexists. split; [reflexivity|]. unfold output. simpl.
    rewrite Z.min_l by lia. reflexivity.
Qed.

Lemma lone_process_runs_uninterrupted_witness :
  exists s,
    simulate [("A"%string, 1, 5, 0)] = Some s /\
    output s = [("A"%string, Z.min 5 (N - 0), 0)].
Proof.
  apply (lone_process_runs_uninterrupted "A" 1 5 0).
  - unfold N. lia.
  - lia.
Defined.

(** * The supporting facts on concrete states *)

Lemma counters_monotone_witness :
  advances (table midSliceState !!! 0%nat) (table laterState !!! 0%nat).
Proof.
  apply (counters_monotone preemptInput 2 5 midSliceState laterState).
  - repeat constructor; vm_compute; discriminate.
  - vm_compute. lia.
  - vm_compute. reflexivity.
  - vm_compute. reflexivity.
Defined.

Lemma preempt_branches_agree_witness :
  scheduling <$> preemptAtBoundary 1 0 midSliceState
  = scheduling <$> preemptMidSlice 2 1 0 midSliceState.
Proof.
  apply (preempt_branches_agree 2 1 0 midSliceState).
  simpl. lia.
Defined.
